(** * The homy lexer (src/interpreter.js, class [Lexer])

    A shallow embedding of the tokenizer of the homy interpreter and the
    properties of its lexical rules.

    Conventions of the embedding.
    - A source text is a [string]; a character is an [ascii] code unit.
    - The lexer object becomes a record [Lexer] that is threaded through
      every method (explicit state passing).
    - [peek] and [advance] return a character or JavaScript's [null]; an
      out-of-range index returns [undefined].  These three kinds of value
      are kept apart in [jschar], because the comparison operators of
      JavaScript treat them differently.
    - A [throw new LexerError(...)] becomes the result [Throw e].
    - Every [while] loop and the recursive call of [nextToken] take a
      fuel argument; the result [OutOfFuel] means that the iteration
      budget was used up before the loop left.  The section on fuel shows
      that a result other than [OutOfFuel] does not depend on the budget. *)

From Stdlib Require Import Bool Arith Lia List Ascii String.
Import ListNotations.

Local Open Scope list_scope.
Local Open Scope string_scope.
Local Open Scope nat_scope.

(** ** JavaScript values that occur as characters *)

Inductive jschar : Type :=
| JNull
| JUndefined
| JChar (c : ascii).

Definition code (c : ascii) : nat := nat_of_ascii c.

(** [ToNumber]: [null] is [+0], [undefined] is [NaN] (here [None]); a
    one-character string is its digit value, [0] when it is white space
    (it trims to the empty string; among the code units below 256 these
    are 9 to 13, 32 and 160) and [NaN] otherwise. *)
Definition toNumber (v : jschar) : option nat :=
  match v with
  | JNull => Some 0
  | JUndefined => None
  | JChar c =>
      if (48 <=? code c) && (code c <=? 57) then Some (code c - 48)
      else if (code c =? 32) || (code c =? 160)
              || ((9 <=? code c) && (code c <=? 13)) then Some 0
      else None
  end.

(** [a >= b] and [a <= b] of JavaScript: two strings are compared by code
    unit, anything else is compared after [ToNumber], and a comparison
    with [NaN] is false. *)
Definition js_ge (a b : jschar) : bool :=
  match a, b with
  | JChar x, JChar y => code y <=? code x
  | _, _ =>
      match toNumber a, toNumber b with
      | Some m, Some n => n <=? m
      | _, _ => false
      end
  end.

Definition js_le (a b : jschar) : bool :=
  match a, b with
  | JChar x, JChar y => code x <=? code y
  | _, _ =>
      match toNumber a, toNumber b with
      | Some m, Some n => m <=? n
      | _, _ => false
      end
  end.

(** Strict equality [a === 'c'] against a character literal. *)
Definition js_eq (a : jschar) (c : ascii) : bool :=
  match a with
  | JChar x => Ascii.eqb x c
  | _ => false
  end.

Definition is_null (a : jschar) : bool :=
  match a with
  | JNull => true
  | _ => false
  end.

(** [ToString], as applied by [value += this.advance()]. *)
Definition toStr (a : jschar) : string :=
  match a with
  | JNull => "null"
  | JUndefined => "undefined"
  | JChar c => String c EmptyString
  end.

Definition LF : ascii := "010"%char.
Definition TAB : ascii := "009"%char.
Definition CR : ascii := "013"%char.
Definition DQUOTE : ascii := "034"%char.

(** ** Tokens *)

Inductive TokenType : Type :=
| EOF | IDENTIFIER | NUMBER | STRING | BOOLEAN | NULL
| NAME_APP_MINI | WEB_PACKAGE_MINI | WEB_MINI_VERSION | MINI_VERSION
| MINI_APP_ICON
| BODY | STYLE | CALL
| FUNC | RETURN | IF | ELSE | FOR | WHILE | BREAK | CONTINUE | LET | CONST
| ASSIGN | PLUS | MINUS | MULTIPLY | DIVIDE | MODULO
| EQ | NEQ | LT | GT | LE | GE | AND | OR | NOT
| LPAREN | RPAREN | LBRACE | RBRACE | LBRACKET | RBRACKET
| COMMA | SEMICOLON | COLON | DOT | AT | SLASH.

(** The [type] field of a token holds whatever the lexer passed to
    [addToken]: a member of [TokenType], or, when the keyword object
    answered a lookup with a member inherited from [Object.prototype],
    that member. *)
Inductive TypeTag : Type :=
| TT (t : TokenType)
| ProtoMember (name : string).

Coercion TT : TokenType >-> TypeTag.

Module Token.
Record t : Type := make
  { type : TypeTag;
    value : string;
    line : nat;
    column : nat }.
End Token.

Definition Token : Type := Token.t.

(** The own properties of the frozen object [KEYWORDS]. *)
Definition KEYWORDS : list (string * TokenType) :=
  [ ("name_app_mini", NAME_APP_MINI);
    ("web_package_mini", WEB_PACKAGE_MINI);
    ("web_mini_version", WEB_MINI_VERSION);
    ("mini_version", MINI_VERSION);
    ("mini_app_icon", MINI_APP_ICON);
    ("body", BODY);
    ("style", STYLE);
    ("Call", CALL);
    ("func", FUNC);
    ("return", RETURN);
    ("if", IF);
    ("else", ELSE);
    ("for", FOR);
    ("while", WHILE);
    ("break", BREAK);
    ("continue", CONTINUE);
    ("let", LET);
    ("const", CONST);
    ("true", BOOLEAN);
    ("false", BOOLEAN);
    ("null", NULL) ].

(** [KEYWORDS] is an object literal, so its prototype is
    [Object.prototype]; these are the property names that every such
    object inherits. *)
Definition ObjectPrototype : list string :=
  [ "constructor"; "hasOwnProperty"; "isPrototypeOf";
    "propertyIsEnumerable"; "toLocaleString"; "toString"; "valueOf";
    "__proto__"; "__defineGetter__"; "__defineSetter__";
    "__lookupGetter__"; "__lookupSetter__" ].

Fixpoint ownProperty (key : string) (o : list (string * TokenType))
  : option TokenType :=
  match o with
  | [] => None
  | (k, v) :: o' => if String.eqb key k then Some v else ownProperty key o'
  end.

(** [KEYWORDS[value]]: the own property if there is one, else the
    inherited member, else [undefined] (here [None]). *)
Definition getKeyword (key : string) : option TypeTag :=
  match ownProperty key KEYWORDS with
  | Some t => Some (TT t)
  | None =>
      if existsb (String.eqb key) ObjectPrototype
      then Some (ProtoMember key)
      else None
  end.

(** [KEYWORDS[value] || TokenType.IDENTIFIER]: every own value is a
    non-empty string and every inherited member is an object, so the
    left operand is falsy only when it is [undefined]. *)
Definition keywordOrIdentifier (key : string) : TypeTag :=
  match getKeyword key with
  | Some t => t
  | None => TT IDENTIFIER
  end.

(** ** Errors and results *)

Inductive LexerError : Type :=
| UnterminatedComment (line column : nat)
| ExpectedQuote (found : jschar) (line column : nat)
| UnterminatedString (line column : nat)
| UnexpectedCharacter (char : jschar) (line column : nat).

Inductive result (A : Type) : Type :=
| Ok (a : A)
| Throw (e : LexerError)
| OutOfFuel.

Arguments Ok {A} a.
Arguments Throw {A} e.
Arguments OutOfFuel {A}.

Definition bind {A B : Type} (r : result A) (k : A -> result B) : result B :=
  match r with
  | Ok a => k a
  | Throw e => Throw e
  | OutOfFuel => OutOfFuel
  end.

Notation "x <- r ;; k" := (bind r (fun x => k))
  (at level 61, r at next level, right associativity).
Notation "' pat <- r ;; k" := (bind r (fun x => match x with pat => k end))
  (at level 61, pat pattern, r at next level, right associativity).

(** ** The lexer state *)

Record Lexer : Type := mkLexer
  { source : string;
    currentPos : nat;
    line : nat;
    column : nat;
    tokens : list Token }.

Definition newLexer (src : string) : Lexer := mkLexer src 0 1 1 [].

(** [source[i]] *)
Definition charAt (src : string) (i : nat) : jschar :=
  match String.get i src with
  | Some c => JChar c
  | None => JUndefined
  end.

Definition peek (L : Lexer) : jschar :=
  if currentPos L <? String.length (source L)
  then charAt (source L) (currentPos L)
  else JNull.

Definition advance (L : Lexer) : jschar * Lexer :=
  if String.length (source L) <=? currentPos L then (JNull, L)
  else
    let char := charAt (source L) (currentPos L) in
    let pos := S (currentPos L) in
    if js_eq char LF
    then (char, mkLexer (source L) pos (S (line L)) 1 (tokens L))
    else (char, mkLexer (source L) pos (line L) (S (column L)) (tokens L)).

Definition addToken (type : TypeTag) (value : string)
  (startLine startColumn : nat) (L : Lexer) : Lexer :=
  mkLexer (source L) (currentPos L) (line L) (column L)
    (tokens L ++ [Token.make type value startLine startColumn]).

(** ** Character classes *)

Definition isWhitespace (char : jschar) : bool :=
  js_eq char " " || js_eq char TAB || js_eq char LF || js_eq char CR.

Definition isDigit (char : jschar) : bool :=
  js_ge char (JChar "0") && js_le char (JChar "9").

Definition isAlpha (char : jschar) : bool :=
  (js_ge char (JChar "a") && js_le char (JChar "z"))
  || (js_ge char (JChar "A") && js_le char (JChar "Z")).

Definition isAlphaNumeric (char : jschar) : bool :=
  isAlpha char || isDigit char || js_eq char "_".

(** ** The scanning methods *)

Fixpoint skipWhitespace (fuel : nat) (L : Lexer) : result Lexer :=
  match fuel with
  | 0 => OutOfFuel
  | S fuel' =>
      if isWhitespace (peek L)
      then skipWhitespace fuel' (snd (advance L))
      else Ok L
  end.

(** The loop of a [//] comment. *)
Fixpoint lineCommentLoop (fuel : nat) (L : Lexer) : result Lexer :=
  match fuel with
  | 0 => OutOfFuel
  | S fuel' =>
      if negb (is_null (peek L)) && negb (js_eq (peek L) LF)
      then lineCommentLoop fuel' (snd (advance L))
      else Ok L
  end.

(** The loop of a block comment; it returns from [readComment] with
    [true] or leaves the loop, after which [readComment] throws. *)
Fixpoint blockCommentLoop (fuel : nat) (startLine startColumn : nat)
  (L : Lexer) : result (bool * Lexer) :=
  match fuel with
  | 0 => OutOfFuel
  | S fuel' =>
      if negb (is_null (peek L)) then
        let (char, L1) := advance L in
        if js_eq char "*" && js_eq (peek L1) "/" then
          let L2 := snd (advance L1) in
          let L3 := snd (advance L2) in
          Ok (true, L3)
        else blockCommentLoop fuel' startLine startColumn L1
      else Throw (UnterminatedComment startLine startColumn)
  end.

Definition readComment (fuel : nat) (L : Lexer) : result (bool * Lexer) :=
  let startLine := line L in
  let startColumn := column L in
  if js_eq (peek L) "/" then
    let L1 := snd (advance L) in
    if js_eq (peek L1) "/" then
      let L2 := snd (advance L1) in
      L3 <- lineCommentLoop fuel L2 ;;
      Ok (true, L3)
    else if js_eq (peek L1) "*" then
      let L2 := snd (advance L1) in
      blockCommentLoop fuel startLine startColumn L2
    else
      let pos := currentPos L1 - 1 in
      if (startColumn =? 1) && (1 <? line L1)
      then Ok (false, mkLexer (source L1) pos (line L1 - 1) (column L1)
                        (tokens L1))
      else Ok (false, mkLexer (source L1) pos (line L1) (column L1 - 1)
                        (tokens L1))
  else Ok (false, L).

Fixpoint stringLoop (fuel : nat) (value : string) (L : Lexer)
  : result (string * Lexer) :=
  match fuel with
  | 0 => OutOfFuel
  | S fuel' =>
      if negb (is_null (peek L)) && negb (js_eq (peek L) DQUOTE) then
        let (c, L1) := advance L in
        stringLoop fuel' (value ++ toStr c) L1
      else Ok (value, L)
  end.

Definition readString (fuel : nat) (L : Lexer) : result Lexer :=
  let startLine := line L in
  let startColumn := column L in
  let (quoteChar, L1) := advance L in
  if negb (js_eq quoteChar DQUOTE)
  then Throw (ExpectedQuote quoteChar startLine startColumn)
  else
    '(value, L2) <- stringLoop fuel EmptyString L1 ;;
    if is_null (peek L2)
    then Throw (UnterminatedString startLine startColumn)
    else
      let L3 := snd (advance L2) in
      Ok (addToken STRING value startLine startColumn L3).

Fixpoint digitLoop (fuel : nat) (value : string) (L : Lexer)
  : result (string * Lexer) :=
  match fuel with
  | 0 => OutOfFuel
  | S fuel' =>
      if isDigit (peek L) then
        let (c, L1) := advance L in
        digitLoop fuel' (value ++ toStr c) L1
      else Ok (value, L)
  end.

Definition readNumber (fuel : nat) (L : Lexer) : result Lexer :=
  let startLine := line L in
  let startColumn := column L in
  '(value, L1) <- digitLoop fuel EmptyString L ;;
  '(value, L2) <-
     (if js_eq (peek L1) "." && isDigit (charAt (source L1) (currentPos L1 + 1))
      then
        let (c, L1') := advance L1 in
        digitLoop fuel (value ++ toStr c) L1'
      else Ok (value, L1)) ;;
  Ok (addToken NUMBER value startLine startColumn L2).

Fixpoint identifierLoop (fuel : nat) (value : string) (L : Lexer)
  : result (string * Lexer) :=
  match fuel with
  | 0 => OutOfFuel
  | S fuel' =>
      if isAlphaNumeric (peek L) || js_eq (peek L) "-" then
        let (c, L1) := advance L in
        identifierLoop fuel' (value ++ toStr c) L1
      else Ok (value, L)
  end.

Definition readIdentifierOrKeyword (fuel : nat) (L : Lexer) : result Lexer :=
  let startLine := line L in
  let startColumn := column L in
  '(value, L1) <- identifierLoop fuel EmptyString L ;;
  let tokenType := keywordOrIdentifier value in
  Ok (addToken tokenType value startLine startColumn L1).

(** [this.addToken(T, this.advance(), startLine, startColumn)] *)
Definition addAdvanced (T : TokenType) (startLine startColumn : nat)
  (L : Lexer) : result Lexer :=
  let (c, L1) := advance L in
  Ok (addToken T (toStr c) startLine startColumn L1).

(** The cases of the [switch] that look one character ahead: after the
    first character is consumed, [two] is added when [next] follows, and
    [otherwise] decides what happens when it does not. *)
Definition oneOrTwo (next : ascii) (two : TokenType) (twoText : string)
  (otherwise : Lexer -> result Lexer) (startLine startColumn : nat)
  (L : Lexer) : result Lexer :=
  let L1 := snd (advance L) in
  if js_eq (peek L1) next then
    let L2 := snd (advance L1) in
    Ok (addToken two twoText startLine startColumn L2)
  else otherwise L1.

(** The [switch] of [nextToken] and the [throw] after it. *)
Definition punctuation (char : jschar) (startLine startColumn : nat)
  (L : Lexer) : result Lexer :=
  let unexpected : result Lexer :=
    Throw (UnexpectedCharacter char startLine startColumn) in
  let single (T : TokenType) (text : string) (L1 : Lexer) :=
    Ok (addToken T text startLine startColumn L1) in
  if js_eq char "=" then
    oneOrTwo "=" EQ "==" (single ASSIGN "=") startLine startColumn L
  else if js_eq char "!" then
    oneOrTwo "=" NEQ "!=" (single NOT "!") startLine startColumn L
  else if js_eq char "<" then
    oneOrTwo "=" LE "<=" (single LT "<") startLine startColumn L
  else if js_eq char ">" then
    oneOrTwo "=" GE ">=" (single GT ">") startLine startColumn L
  else if js_eq char "&" then
    oneOrTwo "&" AND "&&" (fun _ => unexpected) startLine startColumn L
  else if js_eq char "|" then
    oneOrTwo "|" OR "||" (fun _ => unexpected) startLine startColumn L
  else if js_eq char "+" then addAdvanced PLUS startLine startColumn L
  else if js_eq char "-" then addAdvanced MINUS startLine startColumn L
  else if js_eq char "*" then addAdvanced MULTIPLY startLine startColumn L
  else if js_eq char "%" then addAdvanced MODULO startLine startColumn L
  else if js_eq char "(" then addAdvanced LPAREN startLine startColumn L
  else if js_eq char ")" then addAdvanced RPAREN startLine startColumn L
  else if js_eq char "{" then addAdvanced LBRACE startLine startColumn L
  else if js_eq char "}" then addAdvanced RBRACE startLine startColumn L
  else if js_eq char "[" then addAdvanced LBRACKET startLine startColumn L
  else if js_eq char "]" then addAdvanced RBRACKET startLine startColumn L
  else if js_eq char "," then addAdvanced COMMA startLine startColumn L
  else if js_eq char ";" then addAdvanced SEMICOLON startLine startColumn L
  else if js_eq char ":" then addAdvanced COLON startLine startColumn L
  else if js_eq char "." then addAdvanced DOT startLine startColumn L
  else if js_eq char "@" then addAdvanced AT startLine startColumn L
  else if js_eq char "/" then addAdvanced SLASH startLine startColumn L
  else unexpected.

Fixpoint nextToken (fuel : nat) (L0 : Lexer) : result Lexer :=
  match fuel with
  | 0 => OutOfFuel
  | S fuel' =>
      L <- skipWhitespace fuel L0 ;;
      let startLine := line L in
      let startColumn := column L in
      if String.length (source L) <=? currentPos L
      then Ok (addToken EOF "EOF" startLine startColumn L)
      else
        let char := peek L in
        '(wasComment, L1) <- readComment fuel L ;;
        if (wasComment : bool) then nextToken fuel' L1
        else if js_eq char DQUOTE then readString fuel L1
        else if isDigit char then readNumber fuel L1
        else if isAlpha char || js_eq char "_"
        then readIdentifierOrKeyword fuel L1
        else punctuation char startLine startColumn L1
  end.

(** The [while] loop of [tokenize]; [fuel] is handed to [nextToken],
    [n] counts the iterations of this loop. *)
Fixpoint tokenizeLoop (fuel n : nat) (L : Lexer) : result Lexer :=
  match n with
  | 0 => OutOfFuel
  | S n' =>
      if currentPos L <? String.length (source L)
      then L1 <- nextToken fuel L ;; tokenizeLoop fuel n' L1
      else Ok L
  end.

(** [tokenize] on a lexer in any state. *)
Definition tokenizeFrom (fuel : nat) (L : Lexer) : result (list Token) :=
  L1 <- tokenizeLoop fuel fuel L ;;
  Ok (tokens (addToken EOF "EOF" (line L1) (column L1) L1)).

(** [new Lexer(source).tokenize()] *)
Definition tokenize (fuel : nat) (src : string) : result (list Token) :=
  tokenizeFrom fuel (newLexer src).


(** ** The unread input

    The theorems speak about the text that the lexer has not consumed
    yet, which is what the next call of [peek] and [advance] sees. *)

Fixpoint drop (n : nat) (s : string) : string :=
  match n, s with
  | 0, _ => s
  | S n', String _ s' => drop n' s'
  | S _, EmptyString => EmptyString
  end.

Definition unread (L : Lexer) : string := drop (currentPos L) (source L).

(** The lexer after [advance] has consumed the character [c]. *)
Definition consume (c : ascii) (L : Lexer) : Lexer :=
  if Ascii.eqb c LF
  then mkLexer (source L) (S (currentPos L)) (S (line L)) 1 (tokens L)
  else mkLexer (source L) (S (currentPos L)) (line L) (S (column L)) (tokens L).

Fixpoint consumeAll (s : string) (L : Lexer) : Lexer :=
  match s with
  | EmptyString => L
  | String c s' => consumeAll s' (consume c L)
  end.

(** The 1-based position rule of the specification: the line and column
    of the character that follows the text [s], when [s] starts at
    [(ln, col)].  A newline starts the next line at column 1, any other
    character moves one column to the right. *)
Fixpoint positionAfter (s : string) (ln col : nat) : nat * nat :=
  match s with
  | EmptyString => (ln, col)
  | String c s' =>
      if Ascii.eqb c LF then positionAfter s' (S ln) 1
      else positionAfter s' ln (S col)
  end.

(** Predicates on texts. *)
Fixpoint allChars (p : ascii -> bool) (s : string) : bool :=
  match s with
  | EmptyString => true
  | String c s' => p c && allChars p s'
  end.

Definition notChar (x : ascii) (c : ascii) : bool := negb (Ascii.eqb c x).

(** The text [s] starts with the character [c]. *)
Definition startsWith (c : ascii) (s : string) : bool :=
  match s with
  | EmptyString => false
  | String d _ => Ascii.eqb d c
  end.

(** The characters that continue an identifier. *)
Definition identChar (c : ascii) : bool :=
  isAlphaNumeric (JChar c) || Ascii.eqb c "-".

(** The characters that start an identifier. *)
Definition identStart (c : ascii) : bool :=
  isAlpha (JChar c) || Ascii.eqb c "_".

(** An identifier lexeme of the language. *)
Definition isIdentifier (s : string) : bool :=
  match s with
  | EmptyString => false
  | String c s' => identStart c && allChars identChar s'
  end.

(** The characters for which [nextToken] has no rule. *)
Definition noRule (c : ascii) : bool :=
  negb (isWhitespace (JChar c))
  && negb (Ascii.eqb c DQUOTE)
  && negb (isDigit (JChar c))
  && negb (identStart c)
  && allChars (notChar c) "=!<>&|+-*%(){}[],;:.@/".

(** ** Vocabulary of the statements *)

(** A run that ended, with a value or with an error, ends the same way
    when it is given the fuel of [r']. *)
Definition settled {A : Type} (r r' : result A) : Prop :=
  r <> OutOfFuel -> r' = r.

(** [new Token(type, value, line, column)] *)
Definition tok (T : TypeTag) (v : string) (l c : nat) : Token :=
  Token.make T v l c.

(** The lexer that stands behind the prefix [pre] of the source [src]
    with the line and column of the position rule, having added the
    tokens [ts] so far. *)
Definition lexerAt (pre src : string) (ts : list Token) : Lexer :=
  mkLexer src (String.length pre)
    (fst (positionAfter pre 1 1)) (snd (positionAfter pre 1 1)) ts.

Definition isEOF (t : Token) : bool :=
  match Token.type t with
  | TT EOF => true
  | _ => false
  end.

(** The property of C1 as a test on a token sequence: one token of kind
    end-of-input, and that one last. *)
Definition oneEOFAtEnd (ts : list Token) : bool :=
  (List.length (filter isEOF ts) =? 1)
  && match rev ts with
     | t :: _ => isEOF t
     | [] => false
     end.

(** The characters that [isWhitespace] accepts. *)
Definition whiteChar (c : ascii) : bool := isWhitespace (JChar c).

(** The characters that [isDigit] accepts. *)
Definition digitChar (c : ascii) : bool := isDigit (JChar c).

(** The kind and text of each token, without its position. *)
Definition lexemes (ts : list Token) : list (TypeTag * string) :=
  map (fun t => (Token.type t, Token.value t)) ts.

(** The text holds no closing [*/]. *)
Fixpoint noClose (s : string) : bool :=
  match s with
  | EmptyString => true
  | String c s' =>
      negb (Ascii.eqb c "*"
            && match s' with
               | String d _ => Ascii.eqb d "/"
               | EmptyString => false
               end)
      && noClose s'
  end.

(** The text [s] is empty or starts with [c]. *)
Definition endsOrStartsWith (c : ascii) (s : string) : bool :=
  match s with
  | EmptyString => true
  | String d _ => Ascii.eqb d c
  end.

(** A string literal with its two quotes. *)
Definition quoted (body : string) : string :=
  String DQUOTE (body ++ String DQUOTE EmptyString).

(** A sample literal: between the quotes stand the four characters [a],
    backslash, newline and [b]; a semicolon follows the closing quote. *)
Definition quoted_sample_body : string := "a\" ++ String LF "b".

Definition quoted_sample : string :=
  String DQUOTE (quoted_sample_body ++ String DQUOTE ";").

(** The character [c], followed by the text [s], is one that
    [nextToken] rejects: a character without a rule, or an [&] or [|]
    that is not doubled. *)
Definition rejected (c : ascii) (s : string) : bool :=
  noRule c
  || ((Ascii.eqb c "&" || Ascii.eqb c "|") && negb (startsWith c s)).


(** ** Vocabulary of the further properties *)

(** [n] calls of [advance] in a row. *)
Fixpoint advanceN (n : nat) (L : Lexer) : Lexer :=
  match n with
  | 0 => L
  | S n' => advanceN n' (snd (advance L))
  end.

(** [L'] is [L] moved ahead: the same source, the same tokens, and a
    position that is not before that of [L]. *)
Definition ahead (L L' : Lexer) : Prop :=
  source L' = source L /\ tokens L' = tokens L
  /\ currentPos L <= currentPos L'.

(** The last character of a text. *)
Fixpoint lastChar (s : string) : option ascii :=
  match s with
  | EmptyString => None
  | String c EmptyString => Some c
  | String _ s' => lastChar s'
  end.

(** The text does not end in a character that continues a number or an
    identifier (letters, digits, [_] and [-]); the empty text does not. *)
Definition safeEnd (s : string) : bool :=
  match lastChar s with
  | Some c => negb (identChar c)
  | None => true
  end.

(** [L'] is [L] moved ahead with the one token [t] added. *)
Definition addsToken (L L' : Lexer) (t : Token) : Prop :=
  source L' = source L /\ tokens L' = (tokens L ++ [t])%list
  /\ currentPos L <= currentPos L'.

(** A token that is not the end-of-input token. *)
Definition notEOF (t : Token) : bool := negb (isEOF t).

(** The three lexical errors that a run can end with. *)
Definition lexicalError (e : LexerError) : Prop :=
  match e with
  | UnterminatedComment _ _ => True
  | UnterminatedString _ _ => True
  | UnexpectedCharacter (JChar _) _ _ => True
  | _ => False
  end.

(** The text is empty or starts with a character outside the class
    [p]. *)
Definition stopsAt (p : ascii -> bool) (s : string) : bool :=
  match s with
  | EmptyString => true
  | String c _ => negb (p c)
  end.

(** The text starts with a digit. *)
Definition startsWithDigit (s : string) : bool :=
  match s with
  | EmptyString => false
  | String c _ => digitChar c
  end.

(** The operators of two characters in the [switch] of [nextToken]:
    first character, second character, kind and text of the token. *)
Definition twoCharOperators : list (ascii * ascii * TokenType * string) :=
  [ ("="%char, "="%char, EQ, "==");
    ("!"%char, "="%char, NEQ, "!=");
    ("<"%char, "="%char, LE, "<=");
    (">"%char, "="%char, GE, ">=");
    ("&"%char, "&"%char, AND, "&&");
    ("|"%char, "|"%char, OR, "||") ].

(** The tokens of one character in the [switch] of [nextToken], the
    slash apart: the character and the kind of the token.  The first
    four are also the first character of an operator of two. *)
Definition oneCharTokens : list (ascii * TokenType) :=
  [ ("="%char, ASSIGN); ("!"%char, NOT); ("<"%char, LT); (">"%char, GT);
    ("+"%char, PLUS); ("-"%char, MINUS); ("*"%char, MULTIPLY);
    ("%"%char, MODULO);
    ("("%char, LPAREN); (")"%char, RPAREN); ("{"%char, LBRACE);
    ("}"%char, RBRACE); ("["%char, LBRACKET); ("]"%char, RBRACKET);
    (","%char, COMMA); (";"%char, SEMICOLON); (":"%char, COLON);
    ("."%char, DOT); ("@"%char, AT) ].

(** [L'] is [L] after [advance] has consumed the text [s] in front of
    it. *)
Definition consumed (L L' : Lexer) (s : string) : Prop :=
  unread L = s ++ unread L' /\ L' = consumeAll s L.

(** The text of the source that a token stands for: nothing for the
    end-of-input token, the value between its quotes for a STRING, and
    the value itself for every other token. *)
Definition spelling (t : Token) : string :=
  match Token.type t with
  | TT EOF => EmptyString
  | TT STRING => quoted (Token.value t)
  | _ => Token.value t
  end.

(** The first [n] characters of a text. *)
Fixpoint take (n : nat) (s : string) : string :=
  match n, s with
  | 0, _ => EmptyString
  | S n', String c s' => String c (take n' s')
  | S _, EmptyString => EmptyString
  end.

(** The line and column of the lexer are those of its position by the
    rule of 1-based positions. *)
Definition inSync (L : Lexer) : Prop :=
  (line L, column L) = positionAfter (take (currentPos L) (source L)) 1 1.

(** The text starts with a [/] that opens no comment. *)
Definition loneSlash (s : string) : bool :=
  match s with
  | String b r =>
      Ascii.eqb b "/" && negb (startsWith "/" r || startsWith "*" r)
  | EmptyString => false
  end.

(** No line of the text after the first starts with a [/] that opens no
    comment. *)
Fixpoint slashSafe (s : string) : bool :=
  match s with
  | String a s' => negb (Ascii.eqb a LF && loneSlash s') && slashSafe s'
  | EmptyString => true
  end.

(** The text made of the skipped texts and the spellings of the tokens
    in turn. *)
Fixpoint weave (skips : list string) (ts : list Token) : string :=
  match skips, ts with
  | s :: ss, t :: ts' => s ++ spelling t ++ weave ss ts'
  | _, _ => EmptyString
  end.

(** Each token carries the line and column of the first character of
    its spelling, when the tokens and the skipped texts before them are
    laid out from line [ln], column [col]. *)
Fixpoint placed (skips : list string) (ts : list Token) (ln col : nat)
  : Prop :=
  match skips, ts with
  | s :: ss, t :: ts' =>
      (Token.line t, Token.column t) = positionAfter s ln col
      /\ placed ss ts' (fst (positionAfter (s ++ spelling t) ln col))
                       (snd (positionAfter (s ++ spelling t) ln col))
  | _, _ => True
  end.

(** * Properties *)

(** ** Strings *)

Lemma append_nil_r (s : string) : s ++ EmptyString = s.
Proof. induction s; simpl; congruence. Qed.

Lemma append_assoc (s1 s2 s3 : string) : (s1 ++ s2) ++ s3 = s1 ++ (s2 ++ s3).
Proof. induction s1; simpl; congruence. Qed.

Lemma length_append (s1 s2 : string) :
  String.length (s1 ++ s2) = String.length s1 + String.length s2.
Proof. induction s1; simpl; congruence. Qed.

Lemma length_drop (n : nat) (s : string) :
  String.length (drop n s) = String.length s - n.
Proof.
  revert s; induction n as [|n IH]; intros [|c s]; simpl; auto.
Qed.

Lemma get_drop (n : nat) (s : string) :
  String.get n s =
  match drop n s with
  | String c _ => Some c
  | EmptyString => None
  end.
Proof.
  revert s; induction n as [|n IH]; intros [|c s]; simpl; auto.
Qed.

Lemma drop_S (n : nat) (s : string) :
  drop (S n) s =
  match drop n s with
  | String _ t => t
  | EmptyString => EmptyString
  end.
Proof.
  revert s; induction n as [|n IH]; intros [|c s]; try reflexivity.
  exact (IH s).
Qed.

Lemma drop_0 (s : string) : drop 0 s = s.
Proof. destruct s; reflexivity. Qed.

(** ** [peek] and [advance] on the unread input *)

Lemma unread_cons_lt (L : Lexer) (c : ascii) (s : string) :
  unread L = String c s -> currentPos L < String.length (source L).
Proof.
  unfold unread. intros H.
  pose proof (length_drop (currentPos L) (source L)) as Hl.
  rewrite H in Hl. simpl in Hl. lia.
Qed.

Lemma unread_nil_ge (L : Lexer) :
  unread L = EmptyString -> String.length (source L) <= currentPos L.
Proof.
  unfold unread. intros H.
  pose proof (length_drop (currentPos L) (source L)) as Hl.
  rewrite H in Hl. simpl in Hl. lia.
Qed.

Lemma charAt_unread (L : Lexer) (c : ascii) (s : string) :
  unread L = String c s -> charAt (source L) (currentPos L) = JChar c.
Proof.
  unfold unread, charAt. intros H. rewrite get_drop, H. reflexivity.
Qed.

Lemma peek_cons (L : Lexer) (c : ascii) (s : string) :
  unread L = String c s -> peek L = JChar c.
Proof.
  intros H. unfold peek.
  apply unread_cons_lt in H as Hlt. apply Nat.ltb_lt in Hlt. rewrite Hlt.
  eapply charAt_unread; eauto.
Qed.

Lemma peek_nil (L : Lexer) : unread L = EmptyString -> peek L = JNull.
Proof.
  intros H. unfold peek.
  apply unread_nil_ge in H. apply Nat.ltb_ge in H. rewrite H. reflexivity.
Qed.

Lemma peek_startsWith (L : Lexer) (c : ascii) (s : string) :
  unread L = s -> js_eq (peek L) c = startsWith c s.
Proof.
  intros Hu. destruct s as [|d s].
  - rewrite (peek_nil _ Hu). reflexivity.
  - rewrite (peek_cons _ _ _ Hu). reflexivity.
Qed.

Lemma advance_cons (L : Lexer) (c : ascii) (s : string) :
  unread L = String c s -> advance L = (JChar c, consume c L).
Proof.
  intros H. unfold advance, consume.
  apply unread_cons_lt in H as Hlt.
  apply Nat.leb_gt in Hlt. rewrite Hlt.
  rewrite (charAt_unread _ _ _ H). simpl.
  destruct (Ascii.eqb c LF); reflexivity.
Qed.

Lemma advance_nil (L : Lexer) :
  unread L = EmptyString -> advance L = (JNull, L).
Proof.
  intros H. unfold advance.
  apply unread_nil_ge in H. apply Nat.leb_le in H. rewrite H. reflexivity.
Qed.

Lemma unread_consume (L : Lexer) (c : ascii) (s : string) :
  unread L = String c s -> unread (consume c L) = s.
Proof.
  unfold unread, consume. intros H.
  destruct (Ascii.eqb c LF); cbn [currentPos source];
    rewrite drop_S, H; reflexivity.
Qed.

Lemma unread_consumeAll (s : string) : forall (L : Lexer) (rest : string),
  unread L = s ++ rest -> unread (consumeAll s L) = rest.
Proof.
  induction s as [|c s IH]; intros L rest H; simpl in *; auto.
  apply IH. eapply unread_consume; eauto.
Qed.

Lemma source_consumeAll (s : string) : forall L : Lexer,
  source (consumeAll s L) = source L.
Proof.
  induction s as [|c s IH]; intros L; simpl; auto.
  rewrite IH. unfold consume. destruct (Ascii.eqb c LF); reflexivity.
Qed.

Lemma tokens_consumeAll (s : string) : forall L : Lexer,
  tokens (consumeAll s L) = tokens L.
Proof.
  induction s as [|c s IH]; intros L; simpl; auto.
  rewrite IH. unfold consume. destruct (Ascii.eqb c LF); reflexivity.
Qed.

Lemma currentPos_consumeAll (s : string) : forall L : Lexer,
  currentPos (consumeAll s L) = currentPos L + String.length s.
Proof.
  induction s as [|c s IH]; intros L; simpl; auto.
  rewrite IH. unfold consume. destruct (Ascii.eqb c LF); simpl; lia.
Qed.

(** [advance] keeps the line and column by the position rule. *)
Lemma position_consumeAll (s : string) : forall L : Lexer,
  (line (consumeAll s L), column (consumeAll s L))
  = positionAfter s (line L) (column L).
Proof.
  induction s as [|c s IH]; intros L; simpl; auto.
  rewrite IH. unfold consume. destruct (Ascii.eqb c LF); reflexivity.
Qed.

Lemma line_consumeAll (s : string) (L : Lexer) :
  line (consumeAll s L) = fst (positionAfter s (line L) (column L)).
Proof. rewrite <- position_consumeAll. reflexivity. Qed.

Lemma column_consumeAll (s : string) (L : Lexer) :
  column (consumeAll s L) = snd (positionAfter s (line L) (column L)).
Proof. rewrite <- position_consumeAll. reflexivity. Qed.

Lemma consumeAll_app (s1 s2 : string) : forall L : Lexer,
  consumeAll (s1 ++ s2) L = consumeAll s2 (consumeAll s1 L).
Proof.
  induction s1 as [|c s1 IH]; intros L; simpl; auto.
Qed.

Lemma unread_newLexer (src : string) : unread (newLexer src) = src.
Proof. unfold unread, newLexer. simpl. apply drop_0. Qed.

Lemma unread_addToken T v l c (L : Lexer) :
  unread (addToken T v l c L) = unread L.
Proof. reflexivity. Qed.

(** ** Fuel

    A result other than [OutOfFuel] is the result of every run with
    more fuel ([settled]); this is shown for each loop and each method
    in turn. *)

Lemma settled_refl {A : Type} (r : result A) : settled r r.
Proof. intros _. reflexivity. Qed.

Lemma settled_out {A : Type} (r : result A) : settled OutOfFuel r.
Proof. intros H. congruence. Qed.

Lemma settled_bind {A B : Type} (r r' : result A) (k k' : A -> result B) :
  settled r r' -> (forall a, settled (k a) (k' a)) ->
  settled (bind r k) (bind r' k').
Proof.
  intros Hr Hk Hne.
  destruct r as [a| e |]; simpl in *; try congruence.
  - rewrite Hr by discriminate. simpl. apply Hk. exact Hne.
  - rewrite Hr by discriminate. reflexivity.
Qed.

Create HintDb fuel.
#[local] Hint Resolve settled_refl settled_out : fuel.

Ltac fuel_loop n :=
  let IH := fresh "IH" in
  induction n as [|n IH]; intros m; intros;
  [ apply settled_out
  | destruct m as [|m]; [lia|]; simpl;
    repeat match goal with
      | |- context [advance ?L] => destruct (advance L)
      | |- settled (if ?b then _ else _) (if ?b then _ else _) => destruct b
      end;
    auto with fuel; try (apply IH; lia) ].

Lemma skipWhitespace_fuel : forall n m L,
  n <= m -> settled (skipWhitespace n L) (skipWhitespace m L).
Proof. intros n. fuel_loop n. Qed.

Lemma lineCommentLoop_fuel : forall n m L,
  n <= m -> settled (lineCommentLoop n L) (lineCommentLoop m L).
Proof. intros n. fuel_loop n. Qed.

Lemma blockCommentLoop_fuel : forall n m l c L,
  n <= m -> settled (blockCommentLoop n l c L) (blockCommentLoop m l c L).
Proof. intros n. fuel_loop n. Qed.

Lemma stringLoop_fuel : forall n m v L,
  n <= m -> settled (stringLoop n v L) (stringLoop m v L).
Proof. intros n. fuel_loop n. Qed.

Lemma digitLoop_fuel : forall n m v L,
  n <= m -> settled (digitLoop n v L) (digitLoop m v L).
Proof. intros n. fuel_loop n. Qed.

Lemma identifierLoop_fuel : forall n m v L,
  n <= m -> settled (identifierLoop n v L) (identifierLoop m v L).
Proof. intros n. fuel_loop n. Qed.

Lemma readComment_fuel : forall n m L,
  n <= m -> settled (readComment n L) (readComment m L).
Proof.
  intros n m L Hle. unfold readComment.
  repeat match goal with
    | |- settled (if ?b then _ else _) (if ?b then _ else _) => destruct b
    end; auto with fuel.
  - apply settled_bind; auto with fuel. now apply lineCommentLoop_fuel.
  - now apply blockCommentLoop_fuel.
Qed.

Lemma readString_fuel : forall n m L,
  n <= m -> settled (readString n L) (readString m L).
Proof.
  intros n m L Hle. unfold readString.
  destruct (advance L) as [q L1].
  destruct (negb (js_eq q DQUOTE)); auto with fuel.
  apply settled_bind; [now apply stringLoop_fuel|].
  intros [v L2]. auto with fuel.
Qed.

Lemma readNumber_fuel : forall n m L,
  n <= m -> settled (readNumber n L) (readNumber m L).
Proof.
  intros n m L Hle. unfold readNumber.
  apply settled_bind; [now apply digitLoop_fuel|].
  intros [v L1]. apply settled_bind; auto with fuel.
  destruct (js_eq (peek L1) "." && _); auto with fuel.
  destruct (advance L1). now apply digitLoop_fuel.
Qed.

Lemma readIdentifierOrKeyword_fuel : forall n m L,
  n <= m ->
  settled (readIdentifierOrKeyword n L) (readIdentifierOrKeyword m L).
Proof.
  intros n m L Hle. unfold readIdentifierOrKeyword.
  apply settled_bind; [now apply identifierLoop_fuel|].
  intros [v L1]. auto with fuel.
Qed.

Lemma nextToken_fuel : forall n m L,
  n <= m -> settled (nextToken n L) (nextToken m L).
Proof.
  induction n as [|n IH]; intros m L Hle; [apply settled_out|].
  destruct m as [|m]; [lia|].
  cbn [nextToken].
  apply settled_bind; [now apply skipWhitespace_fuel|].
  intros L1.
  destruct (String.length (source L1) <=? currentPos L1); auto with fuel.
  apply settled_bind; [now apply readComment_fuel|].
  intros [b L2]. destruct b; [apply IH; lia|].
  destruct (js_eq (peek L1) DQUOTE); [now apply readString_fuel|].
  destruct (isDigit (peek L1)); [now apply readNumber_fuel|].
  destruct (isAlpha (peek L1) || js_eq (peek L1) "_");
    [now apply readIdentifierOrKeyword_fuel|].
  apply settled_refl.
Qed.

Lemma tokenizeLoop_fuel : forall k k' n m L,
  k <= k' -> n <= m ->
  settled (tokenizeLoop n k L) (tokenizeLoop m k' L).
Proof.
  induction k as [|k IH]; intros k' n m L Hk Hn; [apply settled_out|].
  destruct k' as [|k']; [lia|].
  cbn [tokenizeLoop].
  destruct (currentPos L <? String.length (source L)); auto with fuel.
  apply settled_bind; [now apply nextToken_fuel|].
  intros L1. apply IH; lia.
Qed.

Lemma tokenizeFrom_fuel : forall n m L,
  n <= m -> settled (tokenizeFrom n L) (tokenizeFrom m L).
Proof.
  intros n m L Hle. unfold tokenizeFrom.
  apply settled_bind; [now apply tokenizeLoop_fuel|].
  auto with fuel.
Qed.

(** A result of [tokenize] does not depend on the fuel: once a run ends
    with tokens or with a lexical error, every run with more fuel ends
    the same way. *)
Lemma tokenize_fuel (n m : nat) (src : string) (r : result (list Token)) :
  tokenize n src = r -> r <> OutOfFuel -> n <= m -> tokenize m src = r.
Proof.
  intros Hr Hne Hle. subst r.
  apply (tokenizeFrom_fuel n m (newLexer src) Hle Hne).
Qed.

Lemma nextToken_more_fuel (n m : nat) (L : Lexer) (r : result Lexer) :
  nextToken n L = r -> r <> OutOfFuel -> n <= m -> nextToken m L = r.
Proof.
  intros Hr Hne Hle. subst r. apply (nextToken_fuel n m L Hle Hne).
Qed.

(** ** The dispatch of [nextToken] *)

(** On a character that is neither white space nor [/], [nextToken]
    skips nothing, [readComment] answers [false] and leaves the lexer
    alone, and the rule is chosen by that character. *)
Lemma nextToken_dispatch (f : nat) (L : Lexer) (c : ascii) (s : string) :
  unread L = String c s ->
  isWhitespace (JChar c) = false ->
  Ascii.eqb c "/" = false ->
  nextToken (S f) L =
    (if Ascii.eqb c DQUOTE then readString (S f) L
     else if isDigit (JChar c) then readNumber (S f) L
     else if identStart c then readIdentifierOrKeyword (S f) L
     else punctuation (JChar c) (line L) (column L) L).
Proof.
  intros Hu Hws Hslash.
  pose proof (peek_cons _ _ _ Hu) as Hp.
  pose proof (unread_cons_lt _ _ _ Hu) as Hlt.
  cbn [nextToken skipWhitespace]. rewrite Hp, Hws. cbn [bind].
  apply Nat.leb_gt in Hlt. rewrite Hlt.
  unfold readComment. rewrite Hp. cbn [js_eq]. rewrite Hslash. cbn [bind].
  reflexivity.
Qed.

(** One iteration of the loop of [tokenize] on unread input. *)
Lemma tokenizeLoop_step (fuel n : nat) (L : Lexer) (c : ascii) (s : string) :
  unread L = String c s ->
  tokenizeLoop fuel (S n) L
  = (L1 <- nextToken fuel L ;; tokenizeLoop fuel n L1).
Proof.
  intros Hu. cbn [tokenizeLoop].
  apply unread_cons_lt, Nat.ltb_lt in Hu. rewrite Hu. reflexivity.
Qed.

Lemma tokenizeLoop_done (fuel n : nat) (L : Lexer) :
  unread L = EmptyString -> tokenizeLoop fuel (S n) L = Ok L.
Proof.
  intros Hu. cbn [tokenizeLoop].
  apply unread_nil_ge, Nat.ltb_ge in Hu. rewrite Hu. reflexivity.
Qed.

(** Character classes exclude one another. *)
Lemma digit_class (c : ascii) :
  isDigit (JChar c) = true ->
  isWhitespace (JChar c) = false /\ Ascii.eqb c "/" = false
  /\ Ascii.eqb c DQUOTE = false.
Proof.
  destruct c as [[] [] [] [] [] [] [] []]; vm_compute; intros H;
    try discriminate H; repeat split.
Qed.

Lemma identStart_class (c : ascii) :
  identStart c = true ->
  isWhitespace (JChar c) = false /\ Ascii.eqb c "/" = false
  /\ Ascii.eqb c DQUOTE = false /\ isDigit (JChar c) = false.
Proof.
  destruct c as [[] [] [] [] [] [] [] []]; vm_compute; intros H;
    try discriminate H; repeat split.
Qed.

Lemma noRule_class (c : ascii) :
  noRule c = true ->
  isWhitespace (JChar c) = false /\ Ascii.eqb c "/" = false
  /\ Ascii.eqb c DQUOTE = false /\ isDigit (JChar c) = false
  /\ identStart c = false
  /\ forall l k L, punctuation (JChar c) l k L
                   = Throw (UnexpectedCharacter (JChar c) l k).
Proof.
  destruct c as [[] [] [] [] [] [] [] []]; vm_compute; intros H;
    try discriminate H; repeat split.
Qed.

(** ** End-of-input markers (C1) *)

Ltac run_lexer k :=
  intros; apply (tokenize_fuel k);
  [ vm_compute; reflexivity | discriminate | lia ].

(** Whatever [tokenize] returns ends with an end-of-input token. *)
Lemma tokenize_last_EOF (fuel : nat) (src : string) (ts : list Token) :
  tokenize fuel src = Ok ts ->
  exists pre l c, ts = (pre ++ [tok EOF "EOF" l c])%list.
Proof.
  unfold tokenize, tokenizeFrom. intros H.
  destruct (tokenizeLoop fuel fuel (newLexer src)) as [L1| |];
    simpl in H; try discriminate.
  injection H as <-. exists (tokens L1), (line L1), (column L1). reflexivity.
Qed.

(** [skipWhitespace] consumes a run of white space that reaches the end
    of the input. *)
Lemma skipWhitespace_to_end : forall (ws : string) (fuel : nat) (L : Lexer),
  allChars whiteChar ws = true ->
  unread L = ws ->
  String.length ws < fuel ->
  skipWhitespace fuel L = Ok (consumeAll ws L).
Proof.
  induction ws as [|w ws IH]; intros fuel L Hw Hu Hf;
    (destruct fuel as [|fuel]; [simpl in Hf; lia|]); cbn [skipWhitespace].
  - rewrite (peek_nil _ Hu). reflexivity.
  - cbn [allChars] in Hw. apply andb_prop in Hw as [Hw1 Hw2].
    rewrite (peek_cons _ _ _ Hu). unfold whiteChar in Hw1. rewrite Hw1.
    rewrite (advance_cons _ _ _ Hu). cbn [snd consumeAll].
    apply IH; [exact Hw2 | eapply unread_consume; eauto | simpl in Hf; lia].
Qed.

(** Every source that is white space, and is not empty, yields two
    end-of-input tokens: one from [nextToken], one from [tokenize]. *)
Lemma tokenize_white_space_two_EOF (fuel : nat) (w : ascii) (ws : string) :
  allChars whiteChar (String w ws) = true ->
  String.length ws + 1 < fuel ->
  let eof := tok EOF "EOF" (fst (positionAfter (String w ws) 1 1))
               (snd (positionAfter (String w ws) 1 1)) in
  tokenize fuel (String w ws) = Ok [eof; eof].
Proof.
  intros Hw Hf eof. unfold tokenize, tokenizeFrom.
  pose proof (unread_newLexer (String w ws)) as Hu.
  destruct fuel as [|[|fuel]]; [lia | lia |].
  rewrite (tokenizeLoop_step _ _ _ _ _ Hu).
  assert (Hend : unread (consumeAll (String w ws) (newLexer (String w ws)))
                 = EmptyString).
  { apply unread_consumeAll. rewrite append_nil_r. exact Hu. }
  assert (Hn : nextToken (S (S fuel)) (newLexer (String w ws))
               = Ok (addToken EOF "EOF"
                       (fst (positionAfter (String w ws) 1 1))
                       (snd (positionAfter (String w ws) 1 1))
                       (consumeAll (String w ws) (newLexer (String w ws))))).
  { cbn [nextToken].
    rewrite (skipWhitespace_to_end (String w ws)) by (auto; simpl; lia).
    cbn [bind].
    pose proof (unread_nil_ge _ Hend) as Hge.
    apply Nat.leb_le in Hge. rewrite Hge.
    rewrite line_consumeAll, column_consumeAll. reflexivity. }
  rewrite Hn. cbn [bind].
  rewrite tokenizeLoop_done by (rewrite unread_addToken; exact Hend).
  cbn [bind]. unfold addToken, eof, tok. cbn [tokens line column].
  rewrite tokens_consumeAll, line_consumeAll, column_consumeAll.
  reflexivity.
Qed.

(** C1.  On the source that is one space, [nextToken] skips the space,
    finds the end of the input and adds an end-of-input token; the loop
    of [tokenize] then ends and [tokenize] adds a second one.  The
    returned sequence holds two end-of-input tokens, so it does not end
    with exactly one. *)
Theorem tokenize_trailing_space_two_EOF : forall fuel : nat,
  tokenize (2 + fuel) " " = Ok [tok EOF "EOF" 1 2; tok EOF "EOF" 1 2]
  /\ oneEOFAtEnd [tok EOF "EOF" 1 2; tok EOF "EOF" 1 2] = false.
Proof.
  intros fuel. split; [|reflexivity]. revert fuel. run_lexer 2.
Qed.

(** ** Termination (C2) *)

(** At the end of the input [peek] is [null], [isDigit(null)] holds
    ([null >= '0'] and [null <= '9'] compare the number 0), and
    [advance] returns [null] without moving: the loop of [readNumber]
    appends the text of [null] to [value] forever. *)
Lemma isDigit_null : isDigit JNull = true.
Proof. reflexivity. Qed.

Lemma isAlphaNumeric_null : isAlphaNumeric JNull = true.
Proof. reflexivity. Qed.

Lemma isDigit_undefined : isDigit JUndefined = false.
Proof. reflexivity. Qed.

Lemma digitLoop_at_end : forall (fuel : nat) (v : string) (L : Lexer),
  unread L = EmptyString -> digitLoop fuel v L = OutOfFuel.
Proof.
  induction fuel as [|fuel IH]; intros v L Hu; [reflexivity|].
  cbn [digitLoop]. rewrite (peek_nil _ Hu), isDigit_null.
  rewrite (advance_nil _ Hu). apply IH. exact Hu.
Qed.

Lemma identifierLoop_at_end : forall (fuel : nat) (v : string) (L : Lexer),
  unread L = EmptyString -> identifierLoop fuel v L = OutOfFuel.
Proof.
  induction fuel as [|fuel IH]; intros v L Hu; [reflexivity|].
  cbn [identifierLoop]. rewrite (peek_nil _ Hu), isAlphaNumeric_null.
  cbn [orb]. rewrite (advance_nil _ Hu). apply IH. exact Hu.
Qed.

(** A run of digits that reaches the end of the input is never left. *)
Lemma digitLoop_to_end : forall (ds : string) (fuel : nat) (v : string)
  (L : Lexer),
  allChars digitChar ds = true -> unread L = ds ->
  digitLoop fuel v L = OutOfFuel.
Proof.
  induction ds as [|d ds IH]; intros fuel v L Hd Hu.
  - now apply digitLoop_at_end.
  - destruct fuel as [|fuel]; [reflexivity|].
    cbn [allChars] in Hd. apply andb_prop in Hd as [Hd Hds].
    cbn [digitLoop]. rewrite (peek_cons _ _ _ Hu).
    unfold digitChar in Hd. rewrite Hd.
    rewrite (advance_cons _ _ _ Hu).
    apply IH; [exact Hds|]. eapply unread_consume; eauto.
Qed.

Lemma identifierLoop_to_end : forall (cs : string) (fuel : nat) (v : string)
  (L : Lexer),
  allChars identChar cs = true -> unread L = cs ->
  identifierLoop fuel v L = OutOfFuel.
Proof.
  induction cs as [|c cs IH]; intros fuel v L Hc Hu.
  - now apply identifierLoop_at_end.
  - destruct fuel as [|fuel]; [reflexivity|].
    cbn [allChars] in Hc. apply andb_prop in Hc as [Hc Hcs].
    cbn [identifierLoop]. rewrite (peek_cons _ _ _ Hu).
    unfold identChar in Hc. cbn [js_eq]. rewrite Hc.
    rewrite (advance_cons _ _ _ Hu).
    apply IH; [exact Hcs|]. eapply unread_consume; eauto.
Qed.

(** [nextToken] on a number, and on an identifier, that runs to the end
    of the input uses up every fuel. *)
Lemma nextToken_number_to_end (fuel : nat) (L : Lexer) (d : ascii)
  (ds : string) :
  allChars digitChar (String d ds) = true -> unread L = String d ds ->
  nextToken fuel L = OutOfFuel.
Proof.
  intros Hd Hu. destruct fuel as [|fuel]; [reflexivity|].
  pose proof Hd as Hd'. cbn [allChars] in Hd'.
  apply andb_prop in Hd' as [Hd1 _].
  destruct (digit_class _ Hd1) as (Hws & Hsl & Hq).
  rewrite (nextToken_dispatch _ _ _ _ Hu Hws Hsl), Hq.
  unfold digitChar in Hd1. rewrite Hd1.
  unfold readNumber. rewrite (digitLoop_to_end _ _ _ _ Hd Hu). reflexivity.
Qed.

Lemma identStart_identChar (c : ascii) :
  identStart c = true -> identChar c = true.
Proof.
  destruct c as [[] [] [] [] [] [] [] []]; vm_compute; intros H;
    try discriminate H; reflexivity.
Qed.

Lemma nextToken_identifier_to_end (fuel : nat) (L : Lexer) (x : string) :
  isIdentifier x = true -> unread L = x ->
  nextToken fuel L = OutOfFuel.
Proof.
  intros Hx Hu. destruct fuel as [|fuel]; [reflexivity|].
  destruct x as [|c cs]; [discriminate|].
  cbn [isIdentifier] in Hx. apply andb_prop in Hx as [Hc Hcs].
  destruct (identStart_class _ Hc) as (Hws & Hsl & Hq & Hdg).
  rewrite (nextToken_dispatch _ _ _ _ Hu Hws Hsl), Hq, Hdg, Hc.
  unfold readIdentifierOrKeyword.
  rewrite (identifierLoop_to_end (String c cs)); auto.
  cbn [allChars]. rewrite (identStart_identChar _ Hc), Hcs. reflexivity.
Qed.

(** Hence [tokenize] never returns on a source that is one number or one
    identifier: no fuel is enough. *)
Lemma tokenize_number_never_returns (fuel : nat) (d : ascii) (ds : string) :
  allChars digitChar (String d ds) = true ->
  tokenize fuel (String d ds) = OutOfFuel.
Proof.
  intros Hd. unfold tokenize, tokenizeFrom.
  destruct fuel as [|fuel]; [reflexivity|].
  rewrite (tokenizeLoop_step _ _ _ d ds) by apply unread_newLexer.
  rewrite (nextToken_number_to_end _ _ d ds Hd) by apply unread_newLexer.
  reflexivity.
Qed.

Lemma tokenize_identifier_never_returns (fuel : nat) (x : string) :
  isIdentifier x = true -> tokenize fuel x = OutOfFuel.
Proof.
  intros Hx. unfold tokenize, tokenizeFrom.
  destruct fuel as [|fuel]; [reflexivity|].
  destruct x as [|c cs] eqn:E; [discriminate|].
  rewrite (tokenizeLoop_step _ _ _ c cs) by apply unread_newLexer.
  rewrite (nextToken_identifier_to_end _ _ (String c cs) Hx)
    by apply unread_newLexer.
  reflexivity.
Qed.

(** C2.  [tokenize] does not terminate on the source [7] (it ends in a
    digit) nor on the source [x] (it ends in an identifier character):
    whatever the fuel, the run neither returns tokens nor fails with a
    lexical error. *)
Theorem tokenize_not_total : forall fuel : nat,
  tokenize fuel "7" = OutOfFuel /\ tokenize fuel "x" = OutOfFuel.
Proof.
  intros fuel. split.
  - now apply tokenize_number_never_returns.
  - now apply tokenize_identifier_never_returns.
Qed.

(** ** Block comments (C3) *)

(** What the loop of a block comment does on a comment that is closed:
    it consumes the content, the closing [*/] and, with its last call of
    [advance], whatever character comes next. *)
Lemma blockCommentLoop_closes : forall (body : string) (fuel l k : nat)
  (L : Lexer) (tail : string),
  noClose body = true ->
  unread L = body ++ "*/" ++ tail ->
  String.length body < fuel ->
  blockCommentLoop fuel l k L
  = Ok (true, snd (advance (consumeAll (body ++ "*/") L))).
Proof.
  induction body as [|b body IH]; intros fuel l k L tail Hb Hu Hf;
    (destruct fuel as [|fuel]; [simpl in Hf; lia|]); cbn [blockCommentLoop].
  - cbn [append] in Hu. pose proof (unread_consume _ _ _ Hu) as Hu1.
    rewrite (peek_cons _ _ _ Hu). cbn [is_null negb].
    rewrite (advance_cons _ _ _ Hu), (peek_cons _ _ _ Hu1).
    change (js_eq (JChar "*") "*" && js_eq (JChar "/") "/") with true.
    cbv iota. rewrite (advance_cons _ _ _ Hu1). reflexivity.
  - cbn [append] in Hu. pose proof (unread_consume _ _ _ Hu) as Hu1.
    cbn [noClose] in Hb. apply andb_prop in Hb as [Hb1 Hb2].
    rewrite (peek_cons _ _ _ Hu). cbn [is_null negb].
    rewrite (advance_cons _ _ _ Hu).
    assert (Hno : js_eq (JChar b) "*" && js_eq (peek (consume b L)) "/"
                  = false).
    { cbn [js_eq]. destruct (Ascii.eqb b "*"); [|reflexivity].
      destruct body as [|d body]; cbn [append] in Hu1;
        rewrite (peek_cons _ _ _ Hu1); cbn [js_eq]; [reflexivity|].
      cbn [andb negb] in Hb1. apply negb_true_iff in Hb1.
      rewrite Hb1. reflexivity. }
    rewrite Hno. cbn [consumeAll append].
    apply (IH fuel l k (consume b L) tail Hb2 Hu1). simpl in Hf. lia.
Qed.

(** So after a closed block comment [nextToken] goes on one character
    late: behind the character [c] that follows the closing [*/]. *)
Lemma block_comment_resumes_one_late (fuel : nat) (L : Lexer)
  (body : string) (c : ascii) (rest : string) :
  noClose body = true ->
  unread L = "/*" ++ body ++ "*/" ++ String c rest ->
  String.length body < S fuel ->
  let L' := consumeAll ("/*" ++ body ++ "*/" ++ String c EmptyString) L in
  nextToken (S fuel) L = nextToken fuel L' /\ unread L' = rest.
Proof.
  intros Hb Hu Hf L'.
  assert (Hu' : unread L
                = ("/*" ++ body ++ "*/" ++ String c EmptyString) ++ rest).
  { rewrite Hu. cbn [append]. rewrite !append_assoc. reflexivity. }
  split; [|now apply unread_consumeAll].
  pose proof Hu as Hu0. cbn [append] in Hu0.
  pose proof (unread_consume _ _ _ Hu0) as Hu1.
  pose proof (unread_consume _ _ _ Hu1) as Hu2.
  cbn [nextToken skipWhitespace].
  rewrite (peek_cons _ _ _ Hu0).
  change (isWhitespace (JChar "/")) with false. cbv iota. cbn [bind].
  pose proof (unread_cons_lt _ _ _ Hu0) as Hlt.
  apply Nat.leb_gt in Hlt. rewrite Hlt.
  unfold readComment.
  rewrite (peek_cons _ _ _ Hu0). change (js_eq (JChar "/") "/") with true.
  cbv iota. rewrite (advance_cons _ _ _ Hu0). cbn [snd].
  rewrite (peek_cons _ _ _ Hu1).
  change (js_eq (JChar "*") "/") with false.
  change (js_eq (JChar "*") "*") with true. cbv iota.
  rewrite (advance_cons _ _ _ Hu1). cbn [snd].
  rewrite (blockCommentLoop_closes body (S fuel) _ _ _ (String c rest)
             Hb Hu2 Hf).
  cbn [bind].
  assert (Hu3 : unread (consumeAll (body ++ "*/") (consume "*" (consume "/" L)))
                = String c rest).
  { apply unread_consumeAll. rewrite Hu2, append_assoc. reflexivity. }
  rewrite (advance_cons _ _ _ Hu3). cbn [snd].
  unfold L'. cbn [append consumeAll].
  replace (body ++ String "*" (String "/" (String c EmptyString)))
    with ((body ++ "*/") ++ String c EmptyString)
    by (rewrite append_assoc; reflexivity).
  rewrite !consumeAll_app. reflexivity.
Qed.

(** C3.  In [/* c */a;] the comment is well formed and [a] is the first
    character after its closing [*/].  [readComment] has already
    consumed the [*] when it sees the [/], and its two calls of
    [advance] consume the [/] and the [a]: the identifier is lost.  With
    the comment replaced by one space the identifier is there. *)
Theorem block_comment_swallows_next_char : forall fuel : nat,
  tokenize (8 + fuel) "/* c */a;"
    = Ok [tok SEMICOLON ";" 1 9; tok EOF "EOF" 1 10]
  /\ tokenize (4 + fuel) " a;"
    = Ok [tok IDENTIFIER "a" 1 2; tok SEMICOLON ";" 1 3; tok EOF "EOF" 1 4]
  /\ lexemes [tok SEMICOLON ";" 1 9; tok EOF "EOF" 1 10]
     <> lexemes [tok IDENTIFIER "a" 1 2; tok SEMICOLON ";" 1 3;
                 tok EOF "EOF" 1 4].
Proof.
  intros fuel. split; [|split].
  - revert fuel. run_lexer 8.
  - revert fuel. run_lexer 4.
  - discriminate.
Qed.

(** ** Positions (C4) *)

(** What [readComment] does on a [/] that starts no comment: the lexer
    is put back where it was, except when the [/] stands at column 1 of
    a line after the first; then the line is decremented and the column
    keeps the increment of the [advance] that is undone. *)
Lemma readComment_lone_slash (fuel : nat) (L : Lexer) (s : string) :
  unread L = String "/" s ->
  startsWith "/" s = false ->
  startsWith "*" s = false ->
  readComment fuel L
  = Ok (false,
        if (column L =? 1) && (1 <? line L)
        then mkLexer (source L) (currentPos L) (line L - 1) (S (column L))
               (tokens L)
        else L).
Proof.
  intros Hu H1 H2. pose proof (unread_consume _ _ _ Hu) as Hu1.
  unfold readComment.
  rewrite (peek_cons _ _ _ Hu). change (js_eq (JChar "/") "/") with true.
  cbv iota. rewrite (advance_cons _ _ _ Hu). cbn [snd].
  rewrite !(peek_startsWith _ _ _ Hu1), H1, H2.
  unfold consume. change (Ascii.eqb "/" LF) with false. cbv iota.
  cbn [source currentPos line column tokens].
  rewrite Nat.sub_1_r. cbn [Nat.pred].
  destruct ((column L =? 1) && (1 <? line L)); [reflexivity|].
  rewrite Nat.sub_1_r. cbn [Nat.pred]. destruct L; reflexivity.
Qed.

(** C4.  The source is a newline, a [/] and a [;].  The [/] stands at
    line 2, column 1, and by the position rule the [;] stands at line 2,
    column 2.  [readComment] consumes the [/], finds no comment and
    puts it back; because the slash started at column 1 of a line after
    the first it decrements [line] where it should decrement [column],
    and the [;] is reported at line 1, column 3. *)
Theorem lone_slash_at_column_1_shifts_positions : forall fuel : nat,
  tokenize (3 + fuel) (String LF "/;")
    = Ok [tok SLASH "/" 2 1; tok SEMICOLON ";" 1 3; tok EOF "EOF" 1 4]
  /\ positionAfter (String LF "/") 1 1 = (2, 2).
Proof.
  intros fuel. split; [|reflexivity]. revert fuel. run_lexer 3.
Qed.

(** ** Keywords (C5) *)

Lemma keyword_of_table (v : string) (t : TokenType) :
  ownProperty v KEYWORDS = Some t -> keywordOrIdentifier v = TT t.
Proof.
  intros H. unfold keywordOrIdentifier, getKeyword. rewrite H. reflexivity.
Qed.

Lemma existsb_eqb_In (v : string) (l : list string) :
  existsb (String.eqb v) l = true <-> In v l.
Proof.
  rewrite existsb_exists. split.
  - intros (x & Hin & He). apply String.eqb_eq in He. now subst.
  - intros Hin. exists v. split; [exact Hin | apply String.eqb_refl].
Qed.

Lemma keyword_inherited (v : string) :
  In v ObjectPrototype -> keywordOrIdentifier v = ProtoMember v.
Proof.
  intros H. unfold keywordOrIdentifier, getKeyword.
  assert (ownProperty v KEYWORDS = None) as ->.
  { simpl in H.
    repeat (destruct H as [<- | H]; [reflexivity|]). contradiction. }
  apply existsb_eqb_In in H. rewrite H. reflexivity.
Qed.

Lemma keyword_other (v : string) :
  ownProperty v KEYWORDS = None -> ~ In v ObjectPrototype ->
  keywordOrIdentifier v = TT IDENTIFIER.
Proof.
  intros H Hn. unfold keywordOrIdentifier, getKeyword. rewrite H.
  destruct (existsb (String.eqb v) ObjectPrototype) eqn:E; [|reflexivity].
  apply existsb_eqb_In in E. contradiction.
Qed.

(** C5.  [toString] is not an entry of the keyword table, yet the lookup
    [KEYWORDS[value]] finds the member of that name which the table
    inherits from [Object.prototype]; it is truthy, so the token is
    added with that member as its type and not with [IDENTIFIER]. *)
Theorem inherited_name_is_not_IDENTIFIER : forall fuel : nat,
  ownProperty "toString" KEYWORDS = None
  /\ tokenize (9 + fuel) "toString;"
     = Ok [tok (ProtoMember "toString") "toString" 1 1;
           tok SEMICOLON ";" 1 9; tok EOF "EOF" 1 10]
  /\ tokenize (12 + fuel) "constructor;"
     = Ok [tok (ProtoMember "constructor") "constructor" 1 1;
           tok SEMICOLON ";" 1 12; tok EOF "EOF" 1 13].
Proof.
  intros fuel. split; [reflexivity|split].
  - revert fuel. run_lexer 9.
  - revert fuel. run_lexer 12.
Qed.

(** ** String literals (C6, C7) *)

(** The loop of [readString] copies the characters before the next
    double quote, or before the end of the input, into [value]. *)
Lemma stringLoop_copies : forall (body : string) (fuel : nat) (v : string)
  (L : Lexer) (tail : string),
  allChars (notChar DQUOTE) body = true ->
  endsOrStartsWith DQUOTE tail = true ->
  unread L = body ++ tail ->
  String.length body < fuel ->
  stringLoop fuel v L = Ok (v ++ body, consumeAll body L).
Proof.
  induction body as [|b body IH]; intros fuel v L tail Hb Ht Hu Hf;
    (destruct fuel as [|fuel]; [simpl in Hf; lia|]); cbn [stringLoop].
  - cbn [append] in Hu. rewrite append_nil_r. cbn [consumeAll].
    destruct tail as [|d tail].
    + rewrite (peek_nil _ Hu). reflexivity.
    + rewrite (peek_cons _ _ _ Hu). cbn [endsOrStartsWith] in Ht.
      cbn [is_null js_eq negb andb]. rewrite Ht. reflexivity.
  - cbn [append] in Hu. cbn [allChars] in Hb.
    apply andb_prop in Hb as [Hb1 Hb2].
    rewrite (peek_cons _ _ _ Hu). cbn [is_null js_eq negb andb].
    unfold notChar in Hb1. rewrite Hb1.
    rewrite (advance_cons _ _ _ Hu).
    rewrite (IH fuel _ (consume b L) tail Hb2 Ht).
    + cbn [toStr consumeAll]. rewrite append_assoc. reflexivity.
    + eapply unread_consume; eauto.
    + simpl in Hf. lia.
Qed.

(** [readString] on a literal that is closed. *)
Lemma nextToken_string_literal (fuel : nat) (L : Lexer) (body rest : string) :
  unread L = String DQUOTE (body ++ String DQUOTE rest) ->
  allChars (notChar DQUOTE) body = true ->
  String.length body < fuel ->
  nextToken fuel L
  = Ok (addToken STRING body (line L) (column L)
          (consumeAll (quoted body) L)).
Proof.
  intros Hu Hb Hf.
  pose proof (unread_consume _ _ _ Hu) as Hu1.
  pose proof (unread_consumeAll _ _ _ Hu1) as Hu2.
  destruct fuel as [|fuel]; [lia|].
  rewrite (nextToken_dispatch _ _ _ _ Hu) by reflexivity.
  change (Ascii.eqb DQUOTE DQUOTE) with true. cbv iota.
  unfold readString. rewrite (advance_cons _ _ _ Hu).
  change (negb (js_eq (JChar DQUOTE) DQUOTE)) with false. cbv iota.
  rewrite (stringLoop_copies body (S fuel) EmptyString _ (String DQUOTE rest))
    by (auto; reflexivity).
  cbn [bind append]. rewrite (peek_cons _ _ _ Hu2). cbn [is_null].
  rewrite (advance_cons _ _ _ Hu2). cbn [snd].
  unfold quoted. cbn [consumeAll]. rewrite consumeAll_app. reflexivity.
Qed.

Lemma unread_quoted (L : Lexer) (body rest : string) :
  unread L = String DQUOTE (body ++ String DQUOTE rest) ->
  unread (consumeAll (quoted body) L) = rest.
Proof.
  intros Hu. apply unread_consumeAll. rewrite Hu. unfold quoted.
  cbn [append]. rewrite append_assoc. reflexivity.
Qed.

(** C6.  Wherever the lexer stands at an opening double quote that is
    closed later, [nextToken] adds one STRING token whose value is
    exactly the text [body] between the opening quote and the next
    double quote, whatever characters [body] holds (backslashes and
    newlines included), and goes on right after the closing quote. *)
Theorem string_literal_verbatim (fuel : nat) (L : Lexer)
  (body rest : string) :
  unread L = String DQUOTE (body ++ String DQUOTE rest) ->
  allChars (notChar DQUOTE) body = true ->
  String.length body < fuel ->
  let L' := addToken STRING body (line L) (column L)
              (consumeAll (quoted body) L) in
  nextToken fuel L = Ok L'
  /\ tokens L' = (tokens L ++ [tok STRING body (line L) (column L)])%list
  /\ unread L' = rest.
Proof.
  intros Hu Hb Hf L'. split; [|split].
  - now apply (nextToken_string_literal fuel L body rest).
  - unfold L', addToken, tok. cbn [tokens].
    rewrite tokens_consumeAll. reflexivity.
  - unfold L'. rewrite unread_addToken. now apply unread_quoted.
Qed.

(** The whole run on a source that is one literal: the STRING token
    with the text between the quotes, and the end-of-input token. *)
Lemma tokenize_string_literal (fuel : nat) (body : string) :
  allChars (notChar DQUOTE) body = true ->
  String.length body + 1 < fuel ->
  tokenize fuel (quoted body)
  = Ok [tok STRING body 1 1;
        tok EOF "EOF" (fst (positionAfter (quoted body) 1 1))
          (snd (positionAfter (quoted body) 1 1))].
Proof.
  intros Hb Hf. unfold tokenize, tokenizeFrom.
  assert (Hu : unread (newLexer (quoted body))
               = String DQUOTE (body ++ String DQUOTE EmptyString))
    by apply unread_newLexer.
  destruct fuel as [|[|fuel]]; [lia | lia |].
  rewrite (tokenizeLoop_step _ _ _ _ _ Hu).
  rewrite (nextToken_string_literal _ _ body EmptyString Hu Hb) by lia.
  cbn [bind]. rewrite tokenizeLoop_done
    by (rewrite unread_addToken; now apply unread_quoted).
  cbn [bind]. unfold addToken, tok. cbn [tokens line column].
  rewrite tokens_consumeAll, line_consumeAll, column_consumeAll.
  reflexivity.
Qed.

Lemma string_literal_verbatim_witness :
  let L := newLexer quoted_sample in
  let L' := addToken STRING quoted_sample_body 1 1
              (consumeAll (quoted quoted_sample_body) L) in
  nextToken 5 L = Ok L'
  /\ tokens L' = [tok STRING quoted_sample_body 1 1]
  /\ unread L' = ";".
Proof.
  apply (string_literal_verbatim 5 (newLexer quoted_sample)
           quoted_sample_body ";");
    [reflexivity | reflexivity | simpl; lia].
Defined.

(** The whole run on that source: the backslash is kept and does not
    protect anything, the newline is part of the value. *)
Example tokenize_quoted_sample : forall fuel : nat,
  tokenize (5 + fuel) quoted_sample
  = Ok [tok STRING quoted_sample_body 1 1; tok SEMICOLON ";" 2 3;
        tok EOF "EOF" 2 4].
Proof. run_lexer 5. Qed.

(** A backslash before a double quote does not keep the quote from
    closing the literal: the source is a quote, [a], a backslash, a
    quote, [b] and a semicolon; the value is [a] with the backslash, and
    [b] is an identifier. *)
Example backslash_does_not_escape : forall fuel : nat,
  tokenize (8 + fuel) (String DQUOTE ("a\" ++ String DQUOTE "b;"))
  = Ok [tok STRING "a\" 1 1; tok IDENTIFIER "b" 1 5;
        tok SEMICOLON ";" 1 6; tok EOF "EOF" 1 7].
Proof. run_lexer 8. Qed.

(** [tokenize] fails as soon as a call of [nextToken] fails. *)
Lemma tokenizeFrom_throws (fuel : nat) (L : Lexer) (c : ascii) (s : string)
  (e : LexerError) :
  unread L = String c s -> nextToken fuel L = Throw e ->
  tokenizeFrom fuel L = Throw e.
Proof.
  intros Hu Hn. unfold tokenizeFrom.
  destruct fuel as [|fuel]; [discriminate Hn|].
  rewrite (tokenizeLoop_step _ _ _ _ _ Hu), Hn. reflexivity.
Qed.

(** [readString] at a quote that is never closed. *)
Lemma nextToken_unterminated_string (fuel : nat) (L : Lexer) (body : string) :
  unread L = String DQUOTE body ->
  allChars (notChar DQUOTE) body = true ->
  String.length body < fuel ->
  nextToken fuel L = Throw (UnterminatedString (line L) (column L)).
Proof.
  intros Hu Hb Hf.
  destruct fuel as [|fuel]; [lia|].
  rewrite (nextToken_dispatch _ _ _ _ Hu) by reflexivity.
  change (Ascii.eqb DQUOTE DQUOTE) with true. cbv iota.
  unfold readString. rewrite (advance_cons _ _ _ Hu).
  change (negb (js_eq (JChar DQUOTE) DQUOTE)) with false. cbv iota.
  pose proof (unread_consume _ _ _ Hu) as Hu1.
  rewrite <- (append_nil_r body) in Hu1.
  rewrite (stringLoop_copies body (S fuel) EmptyString _ EmptyString
             Hb eq_refl Hu1 Hf).
  cbn [bind].
  rewrite (peek_nil _ (unread_consumeAll _ _ _ Hu1)). reflexivity.
Qed.



Lemma unread_lexerAt (pre rest : string) (ts : list Token) :
  unread (lexerAt pre (pre ++ rest) ts) = rest.
Proof.
  unfold unread, lexerAt. cbn [currentPos source].
  induction pre as [|c pre IH]; [apply drop_0 | exact IH].
Qed.

(** When the lexer has reached the opening quote with the line and
    column of the position rule, the error points at the place of the
    quote in the source. *)
Lemma unterminated_string_source_position (fuel : nat) (pre body : string)
  (ts : list Token) :
  allChars (notChar DQUOTE) body = true ->
  String.length body < fuel ->
  tokenizeFrom fuel (lexerAt pre (pre ++ String DQUOTE body) ts)
  = Throw (UnterminatedString (fst (positionAfter pre 1 1))
             (snd (positionAfter pre 1 1))).
Proof.
  intros Hb Hf.
  pose proof (unread_lexerAt pre (String DQUOTE body) ts) as Hu.
  apply (tokenizeFrom_throws _ _ _ _ _ Hu).
  exact (nextToken_unterminated_string fuel _ body Hu Hb Hf).
Qed.

(** On a whole source that is one unclosed literal the error points at
    line 1, column 1. *)
Lemma tokenize_unterminated_string (fuel : nat) (body : string) :
  allChars (notChar DQUOTE) body = true ->
  String.length body < fuel ->
  tokenize fuel (String DQUOTE body) = Throw (UnterminatedString 1 1).
Proof.
  intros Hb Hf. unfold tokenize.
  pose proof (unread_newLexer (String DQUOTE body)) as Hu.
  apply (tokenizeFrom_throws _ _ _ _ _ Hu).
  exact (nextToken_unterminated_string fuel _ body Hu Hb Hf).
Qed.

Example tokenize_unterminated_after_tokens : forall fuel : nat,
  tokenize (6 + fuel) ("x =" ++ String LF (" " ++ String DQUOTE "ab c"))
  = Throw (UnterminatedString 2 2).
Proof. run_lexer 6. Qed.

(** ** Unexpected characters (C8) *)

(** [nextToken] at a rejected character. *)
Lemma nextToken_unexpected_character (fuel : nat) (L : Lexer) (c : ascii)
  (s : string) :
  unread L = String c s ->
  rejected c s = true ->
  nextToken (S fuel) L
  = Throw (UnexpectedCharacter (JChar c) (line L) (column L)).
Proof.
  intros Hu Hr.
  unfold rejected in Hr. apply orb_prop in Hr as [Hr|Hr].
  - destruct (noRule_class _ Hr) as (Hws & Hsl & Hq & Hdg & Hid & Hp).
    rewrite (nextToken_dispatch _ _ _ _ Hu Hws Hsl), Hq, Hdg, Hid.
    apply Hp.
  - apply andb_prop in Hr as [Hc Hs]. apply negb_true_iff in Hs.
    pose proof (unread_consume _ _ _ Hu) as Hu1.
    pose proof (peek_startsWith _ c _ Hu1) as Hp. rewrite Hs in Hp.
    apply orb_prop in Hc as [Hc|Hc]; apply Ascii.eqb_eq in Hc; subst c;
      rewrite (nextToken_dispatch _ _ _ _ Hu) by reflexivity;
      cbv beta iota delta [Ascii.eqb Bool.eqb DQUOTE isDigit identStart
        isAlpha js_ge js_le js_eq code nat_of_ascii andb orb];
      vm_compute Nat.leb; cbv iota;
      unfold punctuation;
      cbv beta iota delta [js_eq Ascii.eqb Bool.eqb];
      unfold oneOrTwo; rewrite (advance_cons _ _ _ Hu); cbn [snd];
      rewrite Hp; reflexivity.
Qed.


(** When the lexer has reached the character with the line and column
    of the position rule, the error points at the place of the character
    in the source. *)
Lemma unexpected_character_source_position (fuel : nat) (pre : string)
  (c : ascii) (s : string) (ts : list Token) :
  rejected c s = true ->
  tokenizeFrom (S fuel) (lexerAt pre (pre ++ String c s) ts)
  = Throw (UnexpectedCharacter (JChar c) (fst (positionAfter pre 1 1))
             (snd (positionAfter pre 1 1))).
Proof.
  intros Hr.
  pose proof (unread_lexerAt pre (String c s) ts) as Hu.
  apply (tokenizeFrom_throws _ _ _ _ _ Hu).
  exact (nextToken_unexpected_character fuel _ c s Hu Hr).
Qed.


Example tokenize_lone_ampersand : forall fuel : nat,
  tokenize (9 + fuel) "a && b & c"
  = Throw (UnexpectedCharacter (JChar "&") 1 8).
Proof. run_lexer 9. Qed.

Example tokenize_lone_bar : forall fuel : nat,
  tokenize (9 + fuel) ("a ||" ++ String LF "|")
  = Throw (UnexpectedCharacter (JChar "|") 2 1).
Proof. run_lexer 9. Qed.

Example tokenize_hash : forall fuel : nat,
  tokenize (9 + fuel) "a; #" = Throw (UnexpectedCharacter (JChar "#") 1 4).
Proof. run_lexer 9. Qed.

(** ** Hyphens (C9) *)

Lemma allChars_app (p : ascii -> bool) (s1 s2 : string) :
  allChars p (s1 ++ s2) = allChars p s1 && allChars p s2.
Proof.
  induction s1 as [|c s1 IH]; simpl; auto.
  rewrite IH. apply andb_assoc.
Qed.

(** The loop of [readIdentifierOrKeyword] copies identifier characters
    up to the first character that is none. *)
Lemma identifierLoop_copies : forall (cs : string) (fuel : nat) (v : string)
  (L : Lexer) (d : ascii) (rest : string),
  allChars identChar cs = true ->
  identChar d = false ->
  unread L = cs ++ String d rest ->
  String.length cs < fuel ->
  identifierLoop fuel v L = Ok (v ++ cs, consumeAll cs L).
Proof.
  induction cs as [|c cs IH]; intros fuel v L d rest Hc Hd Hu Hf;
    (destruct fuel as [|fuel]; [simpl in Hf; lia|]); cbn [identifierLoop].
  - cbn [append] in Hu. rewrite (peek_cons _ _ _ Hu).
    unfold identChar in Hd. cbn [js_eq]. rewrite Hd.
    rewrite append_nil_r. reflexivity.
  - cbn [append] in Hu. cbn [allChars] in Hc.
    apply andb_prop in Hc as [Hc1 Hc2].
    rewrite (peek_cons _ _ _ Hu). unfold identChar in Hc1.
    cbn [js_eq]. rewrite Hc1.
    rewrite (advance_cons _ _ _ Hu).
    rewrite (IH fuel _ (consume c L) d rest Hc2 Hd).
    + cbn [toStr consumeAll]. rewrite append_assoc. reflexivity.
    + eapply unread_consume; eauto.
    + simpl in Hf. lia.
Qed.



Lemma isIdentifier_chars (s : string) :
  isIdentifier s = true -> allChars identChar s = true.
Proof.
  destruct s as [|c s]; [discriminate|]. cbn [isIdentifier allChars].
  intros H. apply andb_prop in H as [H1 H2].
  rewrite (identStart_identChar _ H1), H2. reflexivity.
Qed.




Example tokenize_hyphens : forall fuel : nat,
  tokenize (9 + fuel) "a-b - c-1;"
  = Ok [tok IDENTIFIER "a-b" 1 1; tok MINUS "-" 1 5;
        tok IDENTIFIER "c-1" 1 7; tok SEMICOLON ";" 1 10;
        tok EOF "EOF" 1 11].
Proof. run_lexer 9. Qed.

Example tokenize_minus_after_number : forall fuel : nat,
  tokenize (9 + fuel) "(-b) 1-2;"
  = Ok [tok LPAREN "(" 1 1; tok MINUS "-" 1 2; tok IDENTIFIER "b" 1 3;
        tok RPAREN ")" 1 4; tok NUMBER "1" 1 6; tok MINUS "-" 1 7;
        tok NUMBER "2" 1 8; tok SEMICOLON ";" 1 9; tok EOF "EOF" 1 10].
Proof. run_lexer 9. Qed.

(** ** Single-line comments (C10) *)

Lemma positionAfter_one_line : forall (s : string) (ln col : nat),
  allChars (notChar LF) s = true ->
  positionAfter s ln col = (ln, col + String.length s).
Proof.
  induction s as [|c s IH]; intros ln col Hs; simpl.
  - rewrite Nat.add_0_r. reflexivity.
  - cbn [allChars] in Hs. apply andb_prop in Hs as [Hc Hs].
    unfold notChar in Hc. apply negb_true_iff in Hc. rewrite Hc.
    rewrite IH by exact Hs. f_equal. lia.
Qed.

(** The loop of a [//] comment consumes the characters before the next
    newline, or before the end of the input. *)
Lemma lineCommentLoop_consumes : forall (body : string) (fuel : nat)
  (L : Lexer) (tail : string),
  allChars (notChar LF) body = true ->
  endsOrStartsWith LF tail = true ->
  unread L = body ++ tail ->
  String.length body < fuel ->
  lineCommentLoop fuel L = Ok (consumeAll body L).
Proof.
  induction body as [|b body IH]; intros fuel L tail Hb Ht Hu Hf;
    (destruct fuel as [|fuel]; [simpl in Hf; lia|]); cbn [lineCommentLoop].
  - cbn [append] in Hu. cbn [consumeAll].
    destruct tail as [|d tail].
    + rewrite (peek_nil _ Hu). reflexivity.
    + rewrite (peek_cons _ _ _ Hu). cbn [endsOrStartsWith] in Ht.
      cbn [is_null js_eq negb andb]. rewrite Ht. reflexivity.
  - cbn [append] in Hu. cbn [allChars] in Hb.
    apply andb_prop in Hb as [Hb1 Hb2].
    rewrite (peek_cons _ _ _ Hu). cbn [is_null js_eq negb andb].
    unfold notChar in Hb1. rewrite Hb1.
    rewrite (advance_cons _ _ _ Hu). cbn [snd consumeAll].
    apply (IH fuel (consume b L) tail Hb2 Ht).
    + eapply unread_consume; eauto.
    + simpl in Hf. lia.
Qed.

(** [readComment] on a [//] comment that runs to the end of the input
    answers [true] with the whole comment consumed. *)
Lemma readComment_line_to_end (fuel : nat) (L : Lexer) (body : string) :
  unread L = "//" ++ body ->
  allChars (notChar LF) body = true ->
  String.length body < fuel ->
  readComment fuel L = Ok (true, consumeAll ("//" ++ body) L).
Proof.
  intros Hu Hb Hf. cbn [append] in Hu.
  pose proof (unread_consume _ _ _ Hu) as Hu1.
  pose proof (unread_consume _ _ _ Hu1) as Hu2.
  unfold readComment.
  rewrite (peek_cons _ _ _ Hu). change (js_eq (JChar "/") "/") with true.
  cbv iota. rewrite (advance_cons _ _ _ Hu). cbn [snd].
  rewrite (peek_cons _ _ _ Hu1). change (js_eq (JChar "/") "/") with true.
  cbv iota. rewrite (advance_cons _ _ _ Hu1). cbn [snd].
  rewrite <- (append_nil_r body) in Hu2.
  rewrite (lineCommentLoop_consumes body fuel _ EmptyString Hb eq_refl Hu2 Hf).
  reflexivity.
Qed.

(** [nextToken] at the end of the input adds an end-of-input token. *)
Lemma nextToken_at_end (fuel : nat) (L : Lexer) :
  unread L = EmptyString ->
  nextToken (S fuel) L = Ok (addToken EOF "EOF" (line L) (column L) L).
Proof.
  intros Hu. cbn [nextToken skipWhitespace].
  rewrite (peek_nil _ Hu). cbn [isWhitespace js_eq orb bind].
  apply unread_nil_ge, Nat.leb_le in Hu. rewrite Hu. reflexivity.
Qed.

(** C10.  Wherever the lexer stands at a [//] comment that runs to the
    end of the input without a newline, [nextToken] does not fail: it
    consumes the comment, finds the end of the input and adds an
    end-of-input token; [tokenize] then returns normally.  What is
    returned after the tokens already there are end-of-input tokens
    only, placed at the end of the comment: the comment yields no token
    of its own. *)
Theorem line_comment_to_end_is_no_error (fuel : nat) (L : Lexer)
  (body : string) :
  unread L = "//" ++ body ->
  allChars (notChar LF) body = true ->
  String.length body + 1 < fuel ->
  let eof := tok EOF "EOF" (line L) (column L + 2 + String.length body) in
  let L' := consumeAll ("//" ++ body) L in
  nextToken fuel L = Ok (addToken EOF "EOF" (line L') (column L') L')
  /\ (line L', column L') = (line L, column L + 2 + String.length body)
  /\ tokenizeFrom fuel L = Ok (tokens L ++ [eof; eof])%list.
Proof.
  intros Hu Hb Hf eof L'.
  assert (Hpos : (line L', column L')
                 = (line L, column L + 2 + String.length body)).
  { unfold L'. rewrite position_consumeAll.
    rewrite positionAfter_one_line.
    - rewrite length_append. simpl. f_equal. lia.
    - rewrite allChars_app, Hb. reflexivity. }
  assert (Hu' : unread L' = EmptyString).
  { unfold L'. apply unread_consumeAll. rewrite append_nil_r. exact Hu. }
  assert (Hn : nextToken fuel L
               = Ok (addToken EOF "EOF" (line L') (column L') L')).
  { destruct fuel as [|[|fuel]]; [lia | lia |].
    pose proof Hu as Hu0. cbn [append] in Hu0.
    cbn [nextToken skipWhitespace].
    rewrite (peek_cons _ _ _ Hu0).
    change (isWhitespace (JChar "/")) with false. cbv iota. cbn [bind].
    pose proof (unread_cons_lt _ _ _ Hu0) as Hlt.
    apply Nat.leb_gt in Hlt. rewrite Hlt.
    rewrite (readComment_line_to_end _ _ body Hu Hb) by lia.
    cbn [bind]. fold L'.
    apply (nextToken_at_end fuel L' Hu'). }
  split; [exact Hn|]. split; [exact Hpos|].
  unfold tokenizeFrom.
  destruct fuel as [|[|fuel]]; [lia | lia |].
  pose proof Hu as Hu0. cbn [append] in Hu0.
  rewrite (tokenizeLoop_step _ _ _ _ _ Hu0), Hn. cbn [bind].
  rewrite tokenizeLoop_done by (rewrite unread_addToken; exact Hu').
  cbn [bind]. unfold addToken, eof, tok. cbn [tokens line column].
  injection Hpos as -> ->.
  unfold L'. rewrite tokens_consumeAll, <- app_assoc. reflexivity.
Qed.

Lemma line_comment_to_end_is_no_error_witness :
  let L := consumeAll "x;" (newLexer "x;// done") in
  let L' := consumeAll "// done" L in
  unread L = "// done"
  /\ nextToken 7 L = Ok (addToken EOF "EOF" (line L') (column L') L')
  /\ (line L', column L') = (1, 10)
  /\ tokenizeFrom 7 L = Ok [tok EOF "EOF" 1 10; tok EOF "EOF" 1 10].
Proof.
  split; [reflexivity|].
  apply (line_comment_to_end_is_no_error 7
           (consumeAll "x;" (newLexer "x;// done")) " done");
    [reflexivity | reflexivity | simpl; lia].
Defined.

Example tokenize_line_comment_to_end : forall fuel : nat,
  tokenize (9 + fuel) "x; // done"
  = Ok [tok IDENTIFIER "x" 1 1; tok SEMICOLON ";" 1 2;
        tok EOF "EOF" 1 11; tok EOF "EOF" 1 11].
Proof. run_lexer 9. Qed.

Example tokenize_only_line_comment : forall fuel : nat,
  tokenize (9 + fuel) "// done"
  = Ok [tok EOF "EOF" 1 8; tok EOF "EOF" 1 8].
Proof. run_lexer 9. Qed.

(** * Further properties of the lexer *)

(** ** What every method keeps *)

Lemma ahead_refl (L : Lexer) : ahead L L.
Proof. unfold ahead. auto. Qed.

Lemma ahead_trans (L1 L2 L3 : Lexer) :
  ahead L1 L2 -> ahead L2 L3 -> ahead L1 L3.
Proof.
  unfold ahead. intros (S1 & T1 & P1) (S2 & T2 & P2).
  repeat split; try congruence. lia.
Qed.

Lemma ahead_advance (L : Lexer) : ahead L (snd (advance L)).
Proof.
  unfold advance.
  destruct (String.length (source L) <=? currentPos L); [apply ahead_refl|].
  destruct (js_eq (charAt (source L) (currentPos L)) LF);
    unfold ahead; cbn [snd source tokens currentPos]; auto.
Qed.

#[local] Hint Resolve ahead_refl ahead_advance : fuel.

Lemma unread_length (L : Lexer) :
  String.length (unread L) = String.length (source L) - currentPos L.
Proof. apply length_drop. Qed.

Lemma ahead_unread_length (L L' : Lexer) :
  ahead L L' -> String.length (unread L') <= String.length (unread L).
Proof.
  intros (S1 & _ & P1). rewrite !unread_length, S1. lia.
Qed.

Ltac ahead_loop n :=
  let IH := fresh "IH" in
  induction n as [|n IH]; intros; [discriminate|];
  match goal with H : _ = Ok _ |- _ => simpl in H end;
  repeat match goal with
    | H : (if ?b then _ else _) = Ok _ |- _ => destruct b eqn:?
    | H : (let (_, _) := advance ?L in _) = Ok _ |- _ =>
        let E := fresh "E" in
        pose proof (ahead_advance L) as E; destruct (advance L); cbn [snd] in E
    | H : Ok _ = Ok _ |- _ => injection H as ?; subst
    | H : Throw _ = Ok _ |- _ => discriminate H
    end;
  auto with fuel;
  try (eapply ahead_trans; [|eapply IH; eassumption]; auto with fuel).

Lemma skipWhitespace_ahead : forall n L L',
  skipWhitespace n L = Ok L' -> ahead L L'.
Proof. intros n. ahead_loop n. Qed.

Lemma lineCommentLoop_ahead : forall n L L',
  lineCommentLoop n L = Ok L' -> ahead L L'.
Proof. intros n. ahead_loop n. Qed.

Lemma stringLoop_ahead : forall n v L v' L',
  stringLoop n v L = Ok (v', L') -> ahead L L'.
Proof. intros n. ahead_loop n. Qed.

Lemma digitLoop_ahead : forall n v L v' L',
  digitLoop n v L = Ok (v', L') -> ahead L L'.
Proof. intros n. ahead_loop n. Qed.

Lemma identifierLoop_ahead : forall n v L v' L',
  identifierLoop n v L = Ok (v', L') -> ahead L L'.
Proof. intros n. ahead_loop n. Qed.

Lemma blockCommentLoop_ahead : forall n l k L b L',
  blockCommentLoop n l k L = Ok (b, L') -> b = true /\ ahead L L'.
Proof.
  induction n as [|n IH]; intros l k L b L' H; [discriminate|].
  cbn [blockCommentLoop] in H.
  destruct (negb (is_null (peek L))); [|discriminate].
  pose proof (ahead_advance L) as E.
  destruct (advance L) as [ch L1]. cbn [snd] in E.
  destruct (js_eq ch "*" && js_eq (peek L1) "/").
  - injection H as <- <-. split; [reflexivity|].
    eapply ahead_trans; [exact E|].
    eapply ahead_trans; apply ahead_advance.
  - apply IH in H as [Hb Ha]. split; [exact Hb|].
    eapply ahead_trans; eauto.
Qed.

(** What [peek] shows is the first character of the unread input. *)
Lemma peek_JChar (L : Lexer) (c : ascii) :
  peek L = JChar c -> exists s, unread L = String c s.
Proof.
  unfold peek, charAt, unread.
  destruct (currentPos L <? String.length (source L)); [|discriminate].
  rewrite get_drop.
  destruct (drop (currentPos L) (source L)) as [|d s]; [discriminate|].
  intros H. injection H as <-. eauto.
Qed.

Lemma js_eq_true (a : jschar) (c : ascii) : js_eq a c = true -> a = JChar c.
Proof.
  destruct a; simpl; try discriminate.
  intros H. apply Ascii.eqb_eq in H. now subst.
Qed.

Lemma peek_is (L : Lexer) (c : ascii) :
  js_eq (peek L) c = true -> exists s, unread L = String c s.
Proof. intros H. apply peek_JChar. now apply js_eq_true. Qed.

Lemma currentPos_consume (c : ascii) (L : Lexer) :
  currentPos (consume c L) = S (currentPos L).
Proof. unfold consume. destruct (Ascii.eqb c LF); reflexivity. Qed.

Lemma ahead_consume (c : ascii) (L : Lexer) : ahead L (consume c L).
Proof.
  unfold ahead, consume. destruct (Ascii.eqb c LF); simpl; auto.
Qed.

#[local] Hint Resolve ahead_consume : fuel.

(** When [readComment] answers [false] the lexer is where it was, up to
    its line and column. *)
Lemma readComment_false (n : nat) (L L1 : Lexer) :
  readComment n L = Ok (false, L1) ->
  source L1 = source L /\ tokens L1 = tokens L
  /\ currentPos L1 = currentPos L.
Proof.
  unfold readComment. intros H.
  destruct (js_eq (peek L) "/") eqn:E0.
  - apply peek_is in E0 as [s Hu].
    rewrite (advance_cons _ _ _ Hu) in H. cbn [snd] in H.
    destruct (js_eq (peek (consume "/" L)) "/").
    + destruct (lineCommentLoop n _); simpl in H; discriminate.
    + destruct (js_eq (peek (consume "/" L)) "*").
      * apply blockCommentLoop_ahead in H as [Hb _]. discriminate.
      * unfold consume in H. change (Ascii.eqb "/" LF) with false in H.
        cbv iota in H. cbn [source currentPos line column tokens] in H.
        rewrite Nat.sub_1_r in H. cbn [Nat.pred] in H.
        destruct ((column L =? 1) && (1 <? line L));
          injection H as <-; auto.
  - injection H as <-. auto.
Qed.

(** When [readComment] answers [true] it has moved ahead, by the two
    characters that open the comment at least. *)
Lemma readComment_true (n : nat) (L L1 : Lexer) :
  readComment n L = Ok (true, L1) ->
  ahead L L1 /\ currentPos L < currentPos L1.
Proof.
  unfold readComment. intros H.
  destruct (js_eq (peek L) "/") eqn:E0; [|discriminate].
  apply peek_is in E0 as [s Hu].
  rewrite (advance_cons _ _ _ Hu) in H. cbn [snd] in H.
  pose proof (ahead_consume "/" L) as A1.
  pose proof (currentPos_consume "/" L) as P1.
  set (L' := consume "/" L) in *.
  destruct (js_eq (peek L') "/") eqn:E1.
  - destruct (lineCommentLoop n (snd (advance L'))) as [L3| |] eqn:E;
      simpl in H; try discriminate.
    injection H as <-. apply lineCommentLoop_ahead in E.
    pose proof (ahead_advance L') as A2.
    assert (A : ahead L L3) by (eapply ahead_trans; [exact A1|];
                                eapply ahead_trans; eauto).
    split; [exact A|].
    destruct E as (_ & _ & P3). destruct A2 as (_ & _ & P2). lia.
  - destruct (js_eq (peek L') "*") eqn:E2.
    + apply blockCommentLoop_ahead in H as [_ A3].
      pose proof (ahead_advance L') as A2.
      split.
      * eapply ahead_trans; [exact A1|]. eapply ahead_trans; eauto.
      * destruct A3 as (_ & _ & P3). destruct A2 as (_ & _ & P2). lia.
    + destruct ((column L =? 1) && (1 <? line L')); discriminate.
Qed.

(** ** One token for each call of [nextToken] *)

Lemma advance_lt (L : Lexer) :
  currentPos L < String.length (source L) ->
  currentPos (snd (advance L)) = S (currentPos L).
Proof.
  intros H. unfold advance. apply Nat.leb_gt in H. rewrite H.
  destruct (js_eq (charAt (source L) (currentPos L)) LF); reflexivity.
Qed.

Lemma advance_null (L : Lexer) :
  String.length (source L) <= currentPos L -> advance L = (JNull, L).
Proof.
  intros H. unfold advance. apply Nat.leb_le in H. rewrite H. reflexivity.
Qed.

Lemma addsToken_after (L L1 : Lexer) (T : TypeTag) (v : string) (l k : nat) :
  ahead L L1 -> addsToken L (addToken T v l k L1) (tok T v l k).
Proof.
  intros (S1 & T1 & P1). unfold addsToken, addToken, tok.
  cbn [source tokens currentPos]. rewrite T1. auto.
Qed.

Lemma readString_adds (n : nat) (L L' : Lexer) :
  readString n L = Ok L' ->
  exists v, addsToken L L' (tok STRING v (line L) (column L))
            /\ currentPos L < currentPos L'.
Proof.
  unfold readString. intros H.
  destruct (String.length (source L) <=? currentPos L) eqn:E.
  - apply Nat.leb_le in E. rewrite (advance_null _ E) in H. discriminate.
  - apply Nat.leb_gt in E. pose proof (advance_lt _ E) as P1.
    pose proof (ahead_advance L) as A1.
    destruct (advance L) as [q L1]. cbn [snd] in *.
    destruct (negb (js_eq q DQUOTE)); [discriminate|].
    destruct (stringLoop n EmptyString L1) as [[v L2]| |] eqn:E2;
      simpl in H; try discriminate.
    apply stringLoop_ahead in E2.
    destruct (is_null (peek L2)); [discriminate|].
    injection H as <-. exists v.
    pose proof (ahead_advance L2) as A3.
    assert (A : ahead L (snd (advance L2)))
      by (eapply ahead_trans; [exact A1|]; eapply ahead_trans; eauto).
    split; [now apply addsToken_after|].
    unfold addToken. cbn [currentPos].
    destruct E2 as (_ & _ & Q2). destruct A3 as (_ & _ & Q3). lia.
Qed.

Lemma digitLoop_moves (n : nat) (v : string) (L : Lexer) (v' : string)
  (L' : Lexer) :
  currentPos L < String.length (source L) ->
  isDigit (peek L) = true ->
  digitLoop n v L = Ok (v', L') ->
  ahead L L' /\ currentPos L < currentPos L'.
Proof.
  intros Hlt Hd H. destruct n as [|n]; [discriminate|].
  cbn [digitLoop] in H. rewrite Hd in H.
  pose proof (advance_lt _ Hlt) as P1. pose proof (ahead_advance L) as A1.
  destruct (advance L) as [q L1]. cbn [snd] in *.
  apply digitLoop_ahead in H. split; [eapply ahead_trans; eauto|].
  destruct H as (_ & _ & Q). lia.
Qed.

Lemma readNumber_adds (n : nat) (L L' : Lexer) :
  currentPos L < String.length (source L) ->
  isDigit (peek L) = true ->
  readNumber n L = Ok L' ->
  exists v, addsToken L L' (tok NUMBER v (line L) (column L))
            /\ currentPos L < currentPos L'.
Proof.
  unfold readNumber. intros Hlt Hd H.
  destruct (digitLoop n EmptyString L) as [[v L1]| |] eqn:E1;
    simpl in H; try discriminate.
  apply (digitLoop_moves _ _ _ _ _ Hlt Hd) in E1 as [A1 P1].
  match type of H with
  | bind ?r _ = _ => destruct r as [[v2 L2]| |] eqn:E2
  end; simpl in H; try discriminate.
  injection H as <-. exists v2.
  assert (A2 : ahead L1 L2).
  { destruct (js_eq (peek L1) "." && _).
    - pose proof (ahead_advance L1) as A.
      destruct (advance L1) as [q L1']. cbn [snd] in A.
      apply digitLoop_ahead in E2. eapply ahead_trans; eauto.
    - injection E2 as <- <-. apply ahead_refl. }
  split; [apply addsToken_after; eapply ahead_trans; eauto|].
  unfold addToken. cbn [currentPos]. destruct A2 as (_ & _ & Q). lia.
Qed.

Lemma identifierLoop_moves (n : nat) (v : string) (L : Lexer) (v' : string)
  (L' : Lexer) :
  currentPos L < String.length (source L) ->
  isAlpha (peek L) || js_eq (peek L) "_" = true ->
  identifierLoop n v L = Ok (v', L') ->
  ahead L L' /\ currentPos L < currentPos L'.
Proof.
  intros Hlt Hd H. destruct n as [|n]; [discriminate|].
  cbn [identifierLoop] in H.
  assert (Hc : isAlphaNumeric (peek L) || js_eq (peek L) "-" = true).
  { unfold isAlphaNumeric. apply orb_prop in Hd as [-> | ->];
      [reflexivity|]. rewrite !orb_true_r. reflexivity. }
  rewrite Hc in H.
  pose proof (advance_lt _ Hlt) as P1. pose proof (ahead_advance L) as A1.
  destruct (advance L) as [q L1]. cbn [snd] in *.
  apply identifierLoop_ahead in H. split; [eapply ahead_trans; eauto|].
  destruct H as (_ & _ & Q). lia.
Qed.

(** No name that the keyword object knows stands for the end-of-input
    kind. *)
Lemma keywordOrIdentifier_not_EOF (v : string) :
  keywordOrIdentifier v <> TT EOF.
Proof.
  unfold keywordOrIdentifier, getKeyword.
  destruct (ownProperty v KEYWORDS) as [t|] eqn:E.
  - intros H. injection H as ->. revert E. unfold KEYWORDS.
    cbn [ownProperty].
    repeat match goal with
      | |- (if ?b then _ else _) = _ -> _ => destruct b
      end; discriminate.
  - destruct (existsb (String.eqb v) ObjectPrototype); discriminate.
Qed.

Lemma readIdentifierOrKeyword_adds (n : nat) (L L' : Lexer) :
  currentPos L < String.length (source L) ->
  isAlpha (peek L) || js_eq (peek L) "_" = true ->
  readIdentifierOrKeyword n L = Ok L' ->
  exists v, addsToken L L'
              (tok (keywordOrIdentifier v) v (line L) (column L))
            /\ currentPos L < currentPos L'.
Proof.
  unfold readIdentifierOrKeyword. intros Hlt Hd H.
  destruct (identifierLoop n EmptyString L) as [[v L1]| |] eqn:E1;
    simpl in H; try discriminate.
  apply (identifierLoop_moves _ _ _ _ _ Hlt Hd) in E1 as [A1 P1].
  injection H as <-. exists v.
  split; [now apply addsToken_after|]. exact P1.
Qed.

Lemma addAdvanced_adds (T : TokenType) (l k : nat) (L L' : Lexer) :
  currentPos L < String.length (source L) ->
  addAdvanced T l k L = Ok L' ->
  exists v, addsToken L L' (tok T v l k) /\ currentPos L < currentPos L'.
Proof.
  unfold addAdvanced. intros Hlt H.
  pose proof (advance_lt _ Hlt) as P1. pose proof (ahead_advance L) as A1.
  destruct (advance L) as [q L1]. cbn [snd] in *.
  injection H as <-. exists (toStr q).
  split; [now apply addsToken_after|].
  unfold addToken. cbn [currentPos]. lia.
Qed.

Lemma oneOrTwo_adds (next : ascii) (two : TokenType) (text : string)
  (otherwise : Lexer -> result Lexer) (l k : nat) (L L' : Lexer) :
  currentPos L < String.length (source L) ->
  two <> EOF ->
  (forall L1 L2, otherwise L1 = Ok L2 ->
     exists T v, T <> EOF /\ L2 = addToken (TT T) v l k L1) ->
  oneOrTwo next two text otherwise l k L = Ok L' ->
  exists T v, T <> EOF /\ addsToken L L' (tok (TT T) v l k)
              /\ currentPos L < currentPos L'.
Proof.
  unfold oneOrTwo. intros Hlt Htwo Hoth H.
  pose proof (advance_lt _ Hlt) as P1. pose proof (ahead_advance L) as A1.
  set (L1 := snd (advance L)) in *.
  destruct (js_eq (peek L1) next).
  - injection H as <-. exists two, text. split; [exact Htwo|].
    pose proof (ahead_advance L1) as A2.
    split; [apply addsToken_after; eapply ahead_trans; eauto|].
    unfold addToken. cbn [currentPos]. destruct A2 as (_ & _ & Q). lia.
  - apply Hoth in H as (T & v & HT & ->). exists T, v.
    split; [exact HT|]. split; [now apply addsToken_after|].
    unfold addToken. cbn [currentPos]. lia.
Qed.

(** The [switch] adds one token, never the end-of-input token, and
    consumes at least one character. *)
Lemma punctuation_adds (char : jschar) (l k : nat) (L L' : Lexer) :
  currentPos L < String.length (source L) ->
  punctuation char l k L = Ok L' ->
  exists T v, T <> EOF /\ addsToken L L' (tok (TT T) v l k)
              /\ currentPos L < currentPos L'.
Proof.
  unfold punctuation. intros Hlt H. cbv zeta in H.
  repeat match type of H with
    | (if ?b then _ else _) = _ => destruct b
    end;
    first
      [ discriminate H
      | match type of H with
        | addAdvanced ?T _ _ _ = _ =>
            apply (addAdvanced_adds _ _ _ _ _ Hlt) in H as (v & HA & HP);
            exists T, v; split; [discriminate | auto]
        end
      | refine (oneOrTwo_adds _ _ _ _ _ _ _ _ Hlt _ _ H);
        [ discriminate | ];
        intros L1 L2 E;
        first [ discriminate E
              | injection E as <-; eexists _, _;
                split; [|reflexivity]; discriminate ] ].
Qed.

Lemma peek_same (L1 L2 : Lexer) :
  source L1 = source L2 -> currentPos L1 = currentPos L2 ->
  peek L1 = peek L2.
Proof. unfold peek. intros -> ->. reflexivity. Qed.

Lemma isEOF_tok (T : TypeTag) (v : string) (l k : nat) :
  T <> TT EOF -> isEOF (tok T v l k) = false.
Proof.
  unfold isEOF, tok. cbn [Token.type]. intros H.
  destruct T as [[]|]; try reflexivity. contradiction.
Qed.

(** A call of [nextToken] that returns has added exactly one token and
    has not moved back.  The token is the end-of-input token only when
    the lexer has got to the end of the source; otherwise at least one
    character was consumed. *)
Lemma nextToken_step : forall (n : nat) (L L' : Lexer),
  nextToken n L = Ok L' ->
  exists t, addsToken L L' t
    /\ ((t = tok EOF "EOF" (line L') (column L')
         /\ String.length (source L) <= currentPos L')
        \/ (isEOF t = false /\ currentPos L < currentPos L')).
Proof.
  induction n as [|n IH]; intros L L' H; [discriminate|].
  cbn [nextToken] in H.
  destruct (skipWhitespace (S n) L) as [L0| |] eqn:E0;
    simpl in H; try discriminate.
  apply skipWhitespace_ahead in E0. pose proof E0 as (S0 & T0 & P0).
  destruct (String.length (source L0) <=? currentPos L0) eqn:E.
  - injection H as <-. apply Nat.leb_le in E.
    exists (tok EOF "EOF" (line L0) (column L0)).
    split; [now apply addsToken_after|]. left.
    split; [reflexivity|]. unfold addToken. cbn [currentPos]. congruence.
  - apply Nat.leb_gt in E.
    destruct (readComment (S n) L0) as [[b L1]| |] eqn:E1;
      simpl in H; try discriminate.
    destruct b.
    + apply readComment_true in E1 as [(S1 & T1 & P1) Q1].
      apply IH in H as (t & (S2 & T2 & P2) & Ht). exists t. split.
      * unfold addsToken. repeat split; try congruence. lia.
      * destruct Ht as [[Ht Hl]|[Ht Hl]]; [left|right]; split; auto.
        -- congruence.
        -- lia.
    + apply readComment_false in E1 as (S1 & T1 & P1).
      assert (Hlt : currentPos L1 < String.length (source L1))
        by (rewrite S1, P1; exact E).
      rewrite <- (peek_same L1 L0 S1 P1) in H.
      assert (Hw : forall t, addsToken L1 L' t -> addsToken L L' t).
      { intros t (S2 & T2 & P2). unfold addsToken.
        repeat split; try congruence. lia. }
      assert (Hp : currentPos L1 < currentPos L' ->
                   currentPos L < currentPos L') by lia.
      destruct (js_eq (peek L1) DQUOTE).
      { apply readString_adds in H as (v & HA & HP).
        eexists. split; [apply Hw, HA|]. right.
        split; [apply isEOF_tok; discriminate | auto]. }
      destruct (isDigit (peek L1)) eqn:Ed.
      { apply (readNumber_adds _ _ _ Hlt Ed) in H as (v & HA & HP).
        eexists. split; [apply Hw, HA|]. right.
        split; [apply isEOF_tok; discriminate | auto]. }
      destruct (isAlpha (peek L1) || js_eq (peek L1) "_") eqn:Ea.
      { apply (readIdentifierOrKeyword_adds _ _ _ Hlt Ea) in H
          as (v & HA & HP).
        eexists. split; [apply Hw, HA|]. right.
        split; [apply isEOF_tok, keywordOrIdentifier_not_EOF | auto]. }
      apply (punctuation_adds _ _ _ _ _ Hlt) in H as (T & v & HT & HA & HP).
      eexists. split; [apply Hw, HA|]. right.
      split; [apply isEOF_tok; congruence | auto].
Qed.

(** X1.  A call of [nextToken] that returns leaves the source as it is,
    does not move the position back and adds exactly one token to the
    tokens found so far.  That token is the end-of-input token, placed
    at the line and column where the lexer stops, only if the position
    has reached the end of the source; any other token comes with at
    least one consumed character. *)
Theorem nextToken_adds_one_token (n : nat) (L L' : Lexer) :
  nextToken n L = Ok L' ->
  exists t,
    source L' = source L
    /\ tokens L' = (tokens L ++ [t])%list
    /\ currentPos L <= currentPos L'
    /\ ((t = tok EOF "EOF" (line L') (column L')
         /\ String.length (source L) <= currentPos L')
        \/ (isEOF t = false /\ currentPos L < currentPos L')).
Proof.
  intros H. apply nextToken_step in H as (t & (S1 & T1 & P1) & Ht).
  exists t. auto.
Qed.

Lemma nextToken_adds_one_token_witness :
  let L := consumeAll "a" (newLexer "a /* b */ ;") in
  let L' := mkLexer "a /* b */ ;" 11 1 12 [tok SEMICOLON ";" 1 11] in
  nextToken 9 L = Ok L'
  /\ exists t,
       source L' = source L
       /\ tokens L' = (tokens L ++ [t])%list
       /\ currentPos L <= currentPos L'
       /\ ((t = tok EOF "EOF" (line L') (column L')
            /\ String.length (source L) <= currentPos L')
           \/ (isEOF t = false /\ currentPos L < currentPos L')).
Proof.
  split; [reflexivity|].
  apply (nextToken_adds_one_token 9
           (consumeAll "a" (newLexer "a /* b */ ;"))).
  reflexivity.
Defined.

(** ** Where the end-of-input tokens stand *)

Lemma tokenizeLoop_tokens : forall (k fuel : nat) (L L' : Lexer),
  tokenizeLoop fuel k L = Ok L' ->
  exists pre,
    forallb notEOF pre = true
    /\ (tokens L' = (tokens L ++ pre)%list
        \/ tokens L'
           = (tokens L ++ pre ++ [tok EOF "EOF" (line L') (column L')])%list).
Proof.
  induction k as [|k IH]; intros fuel L L' H; [discriminate|].
  cbn [tokenizeLoop] in H.
  destruct (currentPos L <? String.length (source L)).
  - destruct (nextToken fuel L) as [L1| |] eqn:E1; simpl in H;
      try discriminate.
    apply nextToken_step in E1 as (t & (S1 & T1 & P1) & [[Ht Hl]|[Ht Hl]]).
    + destruct k as [|k]; [discriminate|]. cbn [tokenizeLoop] in H.
      rewrite <- S1 in Hl. apply Nat.ltb_ge in Hl. rewrite Hl in H.
      injection H as <-. exists []. split; [reflexivity|].
      right. rewrite T1, Ht. reflexivity.
    + apply IH in H as (pre & Hpre & Htok). exists (t :: pre). split.
      * cbn [forallb]. unfold notEOF at 1. rewrite Ht, Hpre. reflexivity.
      * rewrite T1 in Htok.
        destruct Htok as [-> | ->]; [left|right];
          rewrite <- app_assoc; reflexivity.
  - injection H as <-. exists []. split; [reflexivity|].
    left. rewrite app_nil_r. reflexivity.
Qed.

(** X2.  In every token sequence that [tokenize] returns the
    end-of-input tokens stand at the end and nowhere else: the sequence
    is some tokens that are not end-of-input tokens, followed by one
    end-of-input token or by two equal ones. *)
Theorem tokenize_EOF_only_at_end (fuel : nat) (src : string)
  (ts : list Token) :
  tokenize fuel src = Ok ts ->
  exists pre l c,
    forallb notEOF pre = true
    /\ (ts = (pre ++ [tok EOF "EOF" l c])%list
        \/ ts = (pre ++ [tok EOF "EOF" l c; tok EOF "EOF" l c])%list).
Proof.
  unfold tokenize, tokenizeFrom. intros H.
  destruct (tokenizeLoop fuel fuel (newLexer src)) as [L1| |] eqn:E;
    simpl in H; try discriminate.
  injection H as <-.
  apply tokenizeLoop_tokens in E as (pre & Hpre & Htok).
  exists pre, (line L1), (column L1). split; [exact Hpre|].
  cbn [newLexer tokens app] in Htok.
  destruct Htok as [-> | ->]; [left|right].
  - reflexivity.
  - rewrite <- app_assoc. reflexivity.
Qed.

Lemma tokenize_EOF_only_at_end_witness :
  let ts := [tok IDENTIFIER "x" 1 1; tok SEMICOLON ";" 1 2;
             tok EOF "EOF" 2 1; tok EOF "EOF" 2 1] in
  tokenize 4 ("x;" ++ String LF EmptyString) = Ok ts
  /\ exists pre l c,
       forallb notEOF pre = true
       /\ (ts = (pre ++ [tok EOF "EOF" l c])%list
           \/ ts = (pre ++ [tok EOF "EOF" l c; tok EOF "EOF" l c])%list).
Proof.
  split; [reflexivity|].
  apply (tokenize_EOF_only_at_end 4 ("x;" ++ String LF EmptyString)).
  reflexivity.
Defined.

(** ** Termination *)

Lemma lastChar_drop : forall (n : nat) (s : string) (c : ascii) (s' : string),
  drop n s = String c s' -> lastChar s = lastChar (String c s').
Proof.
  induction n as [|n IH]; intros s c s' H.
  - rewrite drop_0 in H. now subst.
  - destruct s as [|a s2]; [discriminate|].
    change (drop (S n) (String a s2)) with (drop n s2) in H.
    rewrite <- (IH _ _ _ H).
    destruct s2; [destruct n; discriminate | reflexivity].
Qed.

Lemma safeEnd_unread (L : Lexer) (c : ascii) (s : string) :
  safeEnd (source L) = true -> unread L = String c s ->
  safeEnd (String c s) = true.
Proof.
  unfold safeEnd, unread. intros H Hu.
  rewrite <- (lastChar_drop _ _ _ _ Hu). exact H.
Qed.

(** A character that continues an identifier is not the last one of a
    text with a safe end. *)
Lemma safeEnd_identChar (c : ascii) (s : string) :
  safeEnd (String c s) = true -> identChar c = true ->
  exists d s', s = String d s' /\ safeEnd s = true.
Proof.
  intros H Hc. destruct s as [|d s'].
  - unfold safeEnd in H. cbn [lastChar] in H. rewrite Hc in H.
    discriminate.
  - exists d, s'. split; [reflexivity | exact H].
Qed.

Lemma digit_identChar (c : ascii) :
  isDigit (JChar c) = true -> identChar c = true.
Proof.
  destruct c as [[] [] [] [] [] [] [] []]; vm_compute; intros H;
    try discriminate H; reflexivity.
Qed.

Ltac stops_at_end n IH :=
  induction n as [|n IH]; intros; [lia|];
  match goal with
  | H : String.length (unread ?L) < _ |- _ =>
      cbn [skipWhitespace lineCommentLoop stringLoop];
      let Hu := fresh "Hu" in
      destruct (unread L) as [|c s] eqn:Hu;
      [ rewrite (peek_nil _ Hu); cbn; eauto
      | rewrite (peek_cons _ _ _ Hu);
        match goal with
        | |- context [if ?b then _ else _] => destruct b; [|eauto]
        end;
        rewrite (advance_cons _ _ _ Hu); cbn [snd];
        apply IH; rewrite (unread_consume _ _ _ Hu);
        cbn [String.length] in H; lia ]
  end.

Lemma skipWhitespace_terminates : forall (n : nat) (L : Lexer),
  String.length (unread L) < n -> exists L', skipWhitespace n L = Ok L'.
Proof. intros n. stops_at_end n IH. Qed.

Lemma lineCommentLoop_terminates : forall (n : nat) (L : Lexer),
  String.length (unread L) < n -> exists L', lineCommentLoop n L = Ok L'.
Proof. intros n. stops_at_end n IH. Qed.

Lemma stringLoop_terminates : forall (n : nat) (v : string) (L : Lexer),
  String.length (unread L) < n -> exists r, stringLoop n v L = Ok r.
Proof. intros n. stops_at_end n IH. Qed.

Lemma blockCommentLoop_terminates : forall (n l k : nat) (L : Lexer),
  String.length (unread L) < n -> blockCommentLoop n l k L <> OutOfFuel.
Proof.
  induction n as [|n IH]; intros l k L H; [lia|].
  cbn [blockCommentLoop].
  destruct (unread L) as [|c s] eqn:Hu.
  - rewrite (peek_nil _ Hu). discriminate.
  - rewrite (peek_cons _ _ _ Hu). cbn [is_null negb].
    rewrite (advance_cons _ _ _ Hu).
    destruct (js_eq (JChar c) "*" && _); [discriminate|].
    apply IH. rewrite (unread_consume _ _ _ Hu).
    cbn [String.length] in H. lia.
Qed.

Lemma digitLoop_terminates : forall (n : nat) (v : string) (L : Lexer)
  (c : ascii) (s : string),
  unread L = String c s ->
  safeEnd (String c s) = true ->
  String.length (String c s) <= n ->
  exists r, digitLoop n v L = Ok r.
Proof.
  induction n as [|n IH]; intros v L c s Hu Hs Hn; [simpl in Hn; lia|].
  cbn [digitLoop]. rewrite (peek_cons _ _ _ Hu).
  destruct (isDigit (JChar c)) eqn:Ed; [|eauto].
  rewrite (advance_cons _ _ _ Hu).
  destruct (safeEnd_identChar _ _ Hs (digit_identChar _ Ed))
    as (d & s' & -> & Hs').
  apply (IH _ _ d s'); auto.
  - eapply unread_consume; eauto.
  - cbn [String.length] in *. lia.
Qed.

Lemma identifierLoop_terminates : forall (n : nat) (v : string) (L : Lexer)
  (c : ascii) (s : string),
  unread L = String c s ->
  safeEnd (String c s) = true ->
  String.length (String c s) <= n ->
  exists r, identifierLoop n v L = Ok r.
Proof.
  induction n as [|n IH]; intros v L c s Hu Hs Hn; [simpl in Hn; lia|].
  cbn [identifierLoop]. rewrite (peek_cons _ _ _ Hu). cbn [js_eq].
  fold (identChar c).
  destruct (identChar c) eqn:Ed; [|eauto].
  rewrite (advance_cons _ _ _ Hu).
  destruct (safeEnd_identChar _ _ Hs Ed) as (d & s' & -> & Hs').
  apply (IH _ _ d s'); auto.
  - eapply unread_consume; eauto.
  - cbn [String.length] in *. lia.
Qed.

Lemma readComment_terminates (n : nat) (L : Lexer) :
  String.length (unread L) < n -> readComment n L <> OutOfFuel.
Proof.
  intros H. unfold readComment.
  destruct (js_eq (peek L) "/"); [|discriminate].
  pose proof (ahead_unread_length _ _ (ahead_advance L)) as H1.
  set (L1 := snd (advance L)) in *.
  pose proof (ahead_unread_length _ _ (ahead_advance L1)) as H2.
  destruct (js_eq (peek L1) "/").
  - destruct (lineCommentLoop_terminates n (snd (advance L1))) as [L3 ->];
      [lia | discriminate].
  - destruct (js_eq (peek L1) "*").
    + apply blockCommentLoop_terminates. lia.
    + destruct ((column L =? 1) && (1 <? line L1)); discriminate.
Qed.

Lemma readString_terminates (n : nat) (L : Lexer) :
  String.length (unread L) < n -> readString n L <> OutOfFuel.
Proof.
  intros H. unfold readString.
  pose proof (ahead_unread_length _ _ (ahead_advance L)) as H1.
  destruct (advance L) as [q L1]. cbn [snd] in H1.
  destruct (negb (js_eq q DQUOTE)); [discriminate|].
  destruct (stringLoop_terminates n EmptyString L1) as [[v L2] ->]; [lia|].
  cbn [bind]. destruct (is_null (peek L2)); discriminate.
Qed.

Lemma charAt_next (L : Lexer) (c : ascii) (s : string) :
  unread L = String c s ->
  charAt (source L) (currentPos L + 1)
  = match s with
    | String d _ => JChar d
    | EmptyString => JUndefined
    end.
Proof.
  unfold unread, charAt. intros Hu.
  rewrite get_drop, Nat.add_1_r, drop_S, Hu. destruct s; reflexivity.
Qed.

Lemma readNumber_terminates (n : nat) (L : Lexer) (c : ascii) (s : string) :
  safeEnd (source L) = true ->
  unread L = String c s ->
  String.length (String c s) <= n ->
  readNumber n L <> OutOfFuel.
Proof.
  intros Hs Hu Hn. unfold readNumber.
  destruct (digitLoop_terminates n EmptyString L c s Hu
              (safeEnd_unread _ _ _ Hs Hu) Hn) as [[v L1] E1].
  rewrite E1. cbn [bind].
  apply digitLoop_ahead in E1. pose proof E1 as (S1 & _ & _).
  apply ahead_unread_length in E1. rewrite Hu in E1.
  destruct (js_eq (peek L1) ".") eqn:Ep; cbn [andb]; [|discriminate].
  apply peek_is in Ep as [s1 Hu1].
  rewrite (charAt_next _ _ _ Hu1).
  destruct s1 as [|d s1]; [discriminate|].
  destruct (isDigit (JChar d)); [|discriminate].
  rewrite (advance_cons _ _ _ Hu1).
  pose proof (unread_consume _ _ _ Hu1) as Hu2.
  assert (Hs2 : safeEnd (source (consume "." L1)) = true).
  { unfold consume. change (Ascii.eqb "." LF) with false. cbv iota.
    cbn [source]. congruence. }
  destruct (digitLoop_terminates n (v ++ toStr (JChar ".")) _ d s1 Hu2
              (safeEnd_unread _ _ _ Hs2 Hu2)) as [[v2 L2] ->].
  - rewrite Hu1 in E1. cbn [String.length] in *. lia.
  - discriminate.
Qed.

Lemma readIdentifierOrKeyword_terminates (n : nat) (L : Lexer) (c : ascii)
  (s : string) :
  safeEnd (source L) = true ->
  unread L = String c s ->
  String.length (String c s) <= n ->
  readIdentifierOrKeyword n L <> OutOfFuel.
Proof.
  intros Hs Hu Hn. unfold readIdentifierOrKeyword.
  destruct (identifierLoop_terminates n EmptyString L c s Hu
              (safeEnd_unread _ _ _ Hs Hu) Hn) as [[v L1] ->].
  discriminate.
Qed.

Lemma punctuation_terminates (char : jschar) (l k : nat) (L : Lexer) :
  punctuation char l k L <> OutOfFuel.
Proof.
  unfold punctuation, oneOrTwo, addAdvanced. cbv zeta.
  repeat match goal with
    | |- (if ?b then _ else _) <> _ => destruct b
    | |- (let (_, _) := advance ?L in _) <> _ => destruct (advance L)
    end; discriminate.
Qed.

Lemma unread_same (L1 L2 : Lexer) :
  source L1 = source L2 -> currentPos L1 = currentPos L2 ->
  unread L1 = unread L2.
Proof. unfold unread. intros -> ->. reflexivity. Qed.

(** On a source with a safe end [nextToken] returns or fails once the
    fuel exceeds the length of the unread input. *)
Lemma nextToken_terminates : forall (n : nat) (L : Lexer),
  safeEnd (source L) = true ->
  String.length (unread L) < n ->
  nextToken n L <> OutOfFuel.
Proof.
  induction n as [|n IH]; intros L Hs Hn; [lia|].
  cbn [nextToken].
  destruct (skipWhitespace_terminates (S n) L Hn) as [L0 E0].
  rewrite E0. cbn [bind].
  apply skipWhitespace_ahead in E0. pose proof E0 as (S0 & _ & _).
  apply ahead_unread_length in E0.
  destruct (String.length (source L0) <=? currentPos L0) eqn:E;
    [discriminate|].
  apply Nat.leb_gt in E.
  pose proof (readComment_terminates (S n) L0) as Hc.
  destruct (readComment (S n) L0) as [[b L1]| |] eqn:E1; cbn [bind];
    [ | discriminate | exfalso; apply Hc; [lia | reflexivity] ].
  destruct b.
  - apply readComment_true in E1 as [(S1 & T1 & P1) Q1].
    apply IH; [congruence|].
    rewrite !unread_length in *. rewrite S1. lia.
  - apply readComment_false in E1 as (S1 & T1 & P1).
    pose proof (unread_same L1 L0 S1 P1) as Hu.
    assert (Hs1 : safeEnd (source L1) = true) by congruence.
    destruct (js_eq (peek L0) DQUOTE).
    { apply readString_terminates. rewrite Hu. lia. }
    assert (HL : String.length (unread L1)
                 = String.length (source L0) - currentPos L0)
      by (rewrite Hu; apply unread_length).
    assert (Hl : String.length (unread L1) <= S n) by (rewrite Hu; lia).
    destruct (unread L1) as [|c s] eqn:Hu1; [simpl in HL; lia|].
    destruct (isDigit (peek L0)).
    { eapply readNumber_terminates; eauto. }
    destruct (isAlpha (peek L0) || js_eq (peek L0) "_").
    { eapply readIdentifierOrKeyword_terminates; eauto. }
    apply punctuation_terminates.
Qed.

Lemma tokenizeLoop_terminates : forall (k fuel : nat) (L : Lexer),
  safeEnd (source L) = true ->
  String.length (unread L) < fuel ->
  String.length (unread L) < k ->
  tokenizeLoop fuel k L <> OutOfFuel.
Proof.
  induction k as [|k IH]; intros fuel L Hs Hf Hk; [lia|].
  cbn [tokenizeLoop].
  destruct (currentPos L <? String.length (source L)) eqn:E;
    [|discriminate].
  apply Nat.ltb_lt in E.
  pose proof (nextToken_terminates fuel L Hs Hf) as Hn.
  destruct (nextToken fuel L) as [L1| |] eqn:E1; cbn [bind];
    [ | discriminate | contradiction ].
  apply nextToken_step in E1 as (t & (S1 & T1 & P1) & [[Ht Hl]|[Ht Hl]]).
  - rewrite unread_length in Hk.
    destruct k as [|k]; [lia|]. cbn [tokenizeLoop].
    rewrite <- S1 in Hl. apply Nat.ltb_ge in Hl. rewrite Hl. discriminate.
  - apply IH; [congruence | |];
      rewrite !unread_length in *; rewrite S1; lia.
Qed.

(** X3.  [tokenize] terminates on every source that does not end in a
    letter, a digit, [_] or [-]: with fuel beyond the length of the
    source the run returns a token sequence or fails with a lexical
    error. *)
Theorem tokenize_terminates_on_safe_end (fuel : nat) (src : string) :
  safeEnd src = true ->
  String.length src < fuel ->
  (exists ts, tokenize fuel src = Ok ts)
  \/ (exists e, tokenize fuel src = Throw e).
Proof.
  intros Hs Hf. unfold tokenize, tokenizeFrom.
  pose proof (tokenizeLoop_terminates fuel fuel (newLexer src)) as H.
  rewrite unread_newLexer in H. specialize (H Hs Hf Hf).
  destruct (tokenizeLoop fuel fuel (newLexer src)) as [L1|e|]; cbn [bind].
  - left. eauto.
  - right. eauto.
  - contradiction.
Qed.

Lemma tokenize_terminates_on_safe_end_witness :
  safeEnd "let n = 12.5; // half" = false
  /\ safeEnd "let n = 12.5; /* half */" = true
  /\ ((exists ts, tokenize 25 "let n = 12.5; /* half */" = Ok ts)
      \/ (exists e, tokenize 25 "let n = 12.5; /* half */" = Throw e)).
Proof.
  split; [reflexivity|]. split; [reflexivity|].
  apply (tokenize_terminates_on_safe_end 25 "let n = 12.5; /* half */");
    [reflexivity | simpl; lia].
Defined.

(** ** The errors of a run *)

Ltac never_throws n :=
  let IH := fresh "IH" in
  induction n as [|n IH]; intros; [discriminate|]; simpl;
  repeat match goal with
    | |- (if ?b then _ else _) <> _ => destruct b
    | |- (let (_, _) := advance ?L in _) <> _ => destruct (advance L)
    end;
  try discriminate; apply IH.

Lemma skipWhitespace_no_throw : forall n L e, skipWhitespace n L <> Throw e.
Proof. intros n. never_throws n. Qed.

Lemma lineCommentLoop_no_throw : forall n L e,
  lineCommentLoop n L <> Throw e.
Proof. intros n. never_throws n. Qed.

Lemma stringLoop_no_throw : forall n v L e, stringLoop n v L <> Throw e.
Proof. intros n. never_throws n. Qed.

Lemma digitLoop_no_throw : forall n v L e, digitLoop n v L <> Throw e.
Proof. intros n. never_throws n. Qed.

Lemma identifierLoop_no_throw : forall n v L e,
  identifierLoop n v L <> Throw e.
Proof. intros n. never_throws n. Qed.

Lemma blockCommentLoop_throw : forall n l k L e,
  blockCommentLoop n l k L = Throw e -> e = UnterminatedComment l k.
Proof.
  induction n as [|n IH]; intros l k L e H; [discriminate|].
  cbn [blockCommentLoop] in H.
  destruct (negb (is_null (peek L))); [|congruence].
  destruct (advance L) as [ch L1].
  destruct (js_eq ch "*" && js_eq (peek L1) "/"); [discriminate|].
  now apply IH in H.
Qed.

Lemma readComment_throw (n : nat) (L : Lexer) (e : LexerError) :
  readComment n L = Throw e ->
  e = UnterminatedComment (line L) (column L).
Proof.
  unfold readComment. intros H.
  destruct (js_eq (peek L) "/"); [|discriminate].
  destruct (js_eq (peek (snd (advance L))) "/").
  - destruct (lineCommentLoop n _) eqn:E; simpl in H; try discriminate.
    now apply lineCommentLoop_no_throw in E.
  - destruct (js_eq (peek (snd (advance L))) "*").
    + now apply blockCommentLoop_throw in H.
    + destruct ((column L =? 1) && _); discriminate.
Qed.

Lemma readString_throw (n : nat) (L : Lexer) (e : LexerError) :
  js_eq (peek L) DQUOTE = true ->
  readString n L = Throw e ->
  e = UnterminatedString (line L) (column L).
Proof.
  unfold readString. intros Hq H.
  apply peek_is in Hq as [s Hu]. rewrite (advance_cons _ _ _ Hu) in H.
  change (negb (js_eq (JChar DQUOTE) DQUOTE)) with false in H. cbv iota in H.
  destruct (stringLoop n EmptyString (consume DQUOTE L)) as [[v L2]|e2|]
    eqn:E; simpl in H; try discriminate.
  - destruct (is_null (peek L2)); congruence.
  - now apply stringLoop_no_throw in E.
Qed.

Lemma readNumber_no_throw (n : nat) (L : Lexer) (e : LexerError) :
  readNumber n L <> Throw e.
Proof.
  unfold readNumber. intros H.
  destruct (digitLoop n EmptyString L) as [[v L1]|e1|] eqn:E1;
    simpl in H; try discriminate.
  - match type of H with
    | bind ?r _ = _ => destruct r as [[v2 L2]|e2|] eqn:E2
    end; simpl in H; try discriminate.
    destruct (js_eq (peek L1) "." && _); [|discriminate].
    destruct (advance L1). now apply digitLoop_no_throw in E2.
  - now apply digitLoop_no_throw in E1.
Qed.

Lemma readIdentifierOrKeyword_no_throw (n : nat) (L : Lexer)
  (e : LexerError) :
  readIdentifierOrKeyword n L <> Throw e.
Proof.
  unfold readIdentifierOrKeyword. intros H.
  destruct (identifierLoop n EmptyString L) as [[v L1]|e1|] eqn:E1;
    simpl in H; try discriminate.
  now apply identifierLoop_no_throw in E1.
Qed.

Lemma punctuation_throw (char : jschar) (l k : nat) (L : Lexer)
  (e : LexerError) :
  punctuation char l k L = Throw e -> e = UnexpectedCharacter char l k.
Proof.
  unfold punctuation, oneOrTwo, addAdvanced. cbv zeta. intros H.
  repeat match type of H with
    | (if ?b then _ else _) = _ => destruct b
    | (let (_, _) := advance ?L in _) = _ => destruct (advance L)
    end; congruence.
Qed.

Lemma nextToken_throw : forall (n : nat) (L : Lexer) (e : LexerError),
  nextToken n L = Throw e -> lexicalError e.
Proof.
  induction n as [|n IH]; intros L e H; [discriminate|].
  cbn [nextToken] in H.
  destruct (skipWhitespace (S n) L) as [L0|e0|] eqn:E0;
    simpl in H; try discriminate.
  2: { now apply skipWhitespace_no_throw in E0. }
  destruct (String.length (source L0) <=? currentPos L0) eqn:E;
    [discriminate|].
  apply Nat.leb_gt in E.
  destruct (readComment (S n) L0) as [[b L1]|e1|] eqn:E1;
    simpl in H; try discriminate.
  2: { injection H as <-. apply readComment_throw in E1. now subst. }
  destruct b; [now apply IH in H|].
  apply readComment_false in E1 as (S1 & T1 & P1).
  rewrite <- (peek_same L1 L0 S1 P1) in H.
  destruct (js_eq (peek L1) DQUOTE) eqn:Eq.
  { apply (readString_throw _ _ _ Eq) in H. now subst. }
  destruct (isDigit (peek L1)).
  { now apply readNumber_no_throw in H. }
  destruct (isAlpha (peek L1) || js_eq (peek L1) "_").
  { now apply readIdentifierOrKeyword_no_throw in H. }
  apply punctuation_throw in H. subst e.
  assert (Hlt : currentPos L1 < String.length (source L1))
    by (rewrite S1, P1; exact E).
  unfold peek. apply Nat.ltb_lt in Hlt. rewrite Hlt.
  unfold charAt. rewrite get_drop.
  pose proof (length_drop (currentPos L1) (source L1)) as Hd.
  apply Nat.ltb_lt in Hlt.
  destruct (drop (currentPos L1) (source L1)); [simpl in Hd; lia|].
  exact I.
Qed.

Lemma tokenizeLoop_throw : forall (k fuel : nat) (L : Lexer) (e : LexerError),
  tokenizeLoop fuel k L = Throw e -> lexicalError e.
Proof.
  induction k as [|k IH]; intros fuel L e H; [discriminate|].
  cbn [tokenizeLoop] in H.
  destruct (currentPos L <? String.length (source L)); [|discriminate].
  destruct (nextToken fuel L) as [L1|e1|] eqn:E1; simpl in H;
    try discriminate.
  - now apply IH in H.
  - injection H as <-. now apply nextToken_throw in E1.
Qed.

(** X4.  A run of [tokenize] that fails does so with one of three
    errors: unterminated comment, unterminated string, or unexpected
    character, the latter for a character of the source (never for the
    [null] of the end of the input).  The fourth error of the code, the
    missing opening quote of [readString], cannot occur: [nextToken]
    calls [readString] at a double quote only. *)
Theorem tokenize_fails_with_lexical_error (fuel : nat) (src : string)
  (e : LexerError) :
  tokenize fuel src = Throw e -> lexicalError e.
Proof.
  unfold tokenize, tokenizeFrom. intros H.
  destruct (tokenizeLoop fuel fuel (newLexer src)) as [L1|e1|] eqn:E;
    simpl in H; try discriminate.
  injection H as <-. now apply tokenizeLoop_throw in E.
Qed.

Lemma tokenize_fails_with_lexical_error_witness :
  tokenize 9 "a /* b" = Throw (UnterminatedComment 1 3)
  /\ lexicalError (UnterminatedComment 1 3).
Proof.
  split; [reflexivity|].
  apply (tokenize_fails_with_lexical_error 9 "a /* b").
  reflexivity.
Defined.

(** ** White space and comments *)

Lemma skipWhitespace_skips : forall (ws : string) (fuel : nat) (L : Lexer)
  (tail : string),
  allChars whiteChar ws = true ->
  stopsAt whiteChar tail = true ->
  unread L = ws ++ tail ->
  String.length ws < fuel ->
  skipWhitespace fuel L = Ok (consumeAll ws L).
Proof.
  induction ws as [|w ws IH]; intros fuel L tail Hw Ht Hu Hf;
    (destruct fuel as [|fuel]; [simpl in Hf; lia|]); cbn [skipWhitespace].
  - cbn [append] in Hu. destruct tail as [|d tail].
    + rewrite (peek_nil _ Hu). reflexivity.
    + rewrite (peek_cons _ _ _ Hu). cbn [stopsAt] in Ht.
      unfold whiteChar in Ht. apply negb_true_iff in Ht. rewrite Ht.
      reflexivity.
  - cbn [append] in Hu. cbn [allChars] in Hw.
    apply andb_prop in Hw as [Hw1 Hw2].
    rewrite (peek_cons _ _ _ Hu). unfold whiteChar in Hw1. rewrite Hw1.
    rewrite (advance_cons _ _ _ Hu). cbn [snd consumeAll].
    apply (IH fuel _ tail); auto.
    + eapply unread_consume; eauto.
    + simpl in Hf. lia.
Qed.

(** X5.  White space before a token is skipped and nothing else:
    wherever the lexer stands at white space followed by another
    character, [nextToken] does what it does when it starts at that
    character, with the line and column that [advance] has counted over
    the white space. *)
Theorem leading_white_space_is_skipped (fuel : nat) (L : Lexer)
  (ws : string) (c : ascii) (rest : string) :
  allChars whiteChar ws = true ->
  whiteChar c = false ->
  unread L = ws ++ String c rest ->
  String.length ws < fuel ->
  nextToken fuel L = nextToken fuel (consumeAll ws L)
  /\ unread (consumeAll ws L) = String c rest
  /\ (line (consumeAll ws L), column (consumeAll ws L))
     = positionAfter ws (line L) (column L).
Proof.
  intros Hw Hc Hu Hf.
  pose proof (unread_consumeAll _ _ _ Hu) as Hu'.
  split; [|split; [exact Hu' | apply position_consumeAll]].
  destruct fuel as [|fuel]; [lia|]. cbn [nextToken].
  assert (Ht : stopsAt whiteChar (String c rest) = true)
    by (cbn [stopsAt]; rewrite Hc; reflexivity).
  rewrite (skipWhitespace_skips ws (S fuel) L (String c rest) Hw Ht Hu Hf).
  rewrite (skipWhitespace_skips EmptyString (S fuel) (consumeAll ws L)
             (String c rest) eq_refl Ht Hu') by (simpl; lia).
  reflexivity.
Qed.

Lemma leading_white_space_is_skipped_witness :
  let ws := " " ++ String LF (String TAB EmptyString) in
  let L := consumeAll "a" (newLexer ("a" ++ ws ++ "b;")) in
  unread L = ws ++ "b;"
  /\ nextToken 4 L = nextToken 4 (consumeAll ws L)
  /\ unread (consumeAll ws L) = "b;"
  /\ (line (consumeAll ws L), column (consumeAll ws L)) = (2, 2).
Proof.
  split; [reflexivity|].
  apply (leading_white_space_is_skipped 4
           (consumeAll "a"
              (newLexer ("a" ++ (" " ++ String LF (String TAB EmptyString))
                         ++ "b;")))
           (" " ++ String LF (String TAB EmptyString)) "b"%char ";");
    [reflexivity | reflexivity | reflexivity | simpl; lia].
Defined.

Lemma readComment_line (fuel : nat) (L : Lexer) (body tail : string) :
  unread L = "//" ++ body ++ tail ->
  allChars (notChar LF) body = true ->
  endsOrStartsWith LF tail = true ->
  String.length body < fuel ->
  readComment fuel L = Ok (true, consumeAll ("//" ++ body) L).
Proof.
  intros Hu Hb Ht Hf. cbn [append] in Hu.
  pose proof (unread_consume _ _ _ Hu) as Hu1.
  pose proof (unread_consume _ _ _ Hu1) as Hu2.
  unfold readComment.
  rewrite (peek_cons _ _ _ Hu). change (js_eq (JChar "/") "/") with true.
  cbv iota. rewrite (advance_cons _ _ _ Hu). cbn [snd].
  rewrite (peek_cons _ _ _ Hu1). change (js_eq (JChar "/") "/") with true.
  cbv iota. rewrite (advance_cons _ _ _ Hu1). cbn [snd].
  rewrite (lineCommentLoop_consumes body fuel _ tail Hb Ht Hu2 Hf).
  reflexivity.
Qed.

(** X6.  A [//] comment that a newline ends is skipped exactly:
    wherever the lexer stands at such a comment, [nextToken] goes on
    with the lexer standing at the newline, on the line of the comment;
    the newline is then white space for the call that follows. *)
Theorem line_comment_is_skipped (fuel : nat) (L : Lexer)
  (body rest : string) :
  unread L = "//" ++ body ++ String LF rest ->
  allChars (notChar LF) body = true ->
  String.length body < S fuel ->
  let L' := consumeAll ("//" ++ body) L in
  nextToken (S fuel) L = nextToken fuel L'
  /\ unread L' = String LF rest
  /\ line L' = line L
  /\ tokens L' = tokens L.
Proof.
  intros Hu Hb Hf L'.
  assert (Hu' : unread L = ("//" ++ body) ++ String LF rest)
    by (rewrite Hu; cbn [append]; reflexivity).
  split; [|split; [|split]].
  - pose proof Hu as Hu0. cbn [append] in Hu0.
    cbn [nextToken skipWhitespace].
    rewrite (peek_cons _ _ _ Hu0).
    change (isWhitespace (JChar "/")) with false. cbv iota. cbn [bind].
    pose proof (unread_cons_lt _ _ _ Hu0) as Hlt.
    apply Nat.leb_gt in Hlt. rewrite Hlt.
    rewrite (readComment_line _ _ body (String LF rest) Hu Hb eq_refl Hf).
    reflexivity.
  - now apply unread_consumeAll.
  - unfold L'. rewrite line_consumeAll, positionAfter_one_line;
      [reflexivity|]. rewrite allChars_app, Hb. reflexivity.
  - apply tokens_consumeAll.
Qed.

Lemma line_comment_is_skipped_witness :
  let src := "a // b" ++ String LF "c;" in
  let L := consumeAll "a " (newLexer src) in
  let L' := consumeAll "// b" L in
  unread L = "// b" ++ String LF "c;"
  /\ nextToken 5 L = nextToken 4 L'
  /\ unread L' = String LF "c;"
  /\ line L' = 1
  /\ tokens L' = [].
Proof.
  split; [reflexivity|].
  apply (line_comment_is_skipped 4
           (consumeAll "a " (newLexer ("a // b" ++ String LF "c;")))
           " b" "c;");
    [reflexivity | reflexivity | simpl; lia].
Defined.

Lemma blockCommentLoop_unterminated : forall (body : string)
  (fuel l k : nat) (L : Lexer),
  noClose body = true ->
  unread L = body ->
  String.length body < fuel ->
  blockCommentLoop fuel l k L = Throw (UnterminatedComment l k).
Proof.
  induction body as [|b body IH]; intros fuel l k L Hb Hu Hf;
    (destruct fuel as [|fuel]; [simpl in Hf; lia|]); cbn [blockCommentLoop].
  - rewrite (peek_nil _ Hu). reflexivity.
  - pose proof (unread_consume _ _ _ Hu) as Hu1.
    cbn [noClose] in Hb. apply andb_prop in Hb as [Hb1 Hb2].
    rewrite (peek_cons _ _ _ Hu). cbn [is_null negb].
    rewrite (advance_cons _ _ _ Hu).
    assert (Hno : js_eq (JChar b) "*" && js_eq (peek (consume b L)) "/"
                  = false).
    { cbn [js_eq]. destruct (Ascii.eqb b "*"); [|reflexivity].
      destruct body as [|d body].
      - rewrite (peek_nil _ Hu1). reflexivity.
      - rewrite (peek_cons _ _ _ Hu1). cbn [js_eq].
        cbn [andb negb] in Hb1. apply negb_true_iff in Hb1.
        rewrite Hb1. reflexivity. }
    rewrite Hno. apply (IH fuel l k (consume b L) Hb2 Hu1).
    simpl in Hf. lia.
Qed.

(** X7.  Wherever the lexer stands at a [/*] after which the input
    holds no [*/], [nextToken] and [tokenize] fail with the
    unterminated-comment error; the error carries the line and column
    at which the lexer stands on the opening [/].  The source [/*/] is
    such a case: the [*] of the opening is not taken for the [*] of a
    closing. *)
Theorem unterminated_block_comment_error (fuel : nat) (L : Lexer)
  (body : string) :
  unread L = "/*" ++ body ->
  noClose body = true ->
  String.length body < fuel ->
  nextToken fuel L = Throw (UnterminatedComment (line L) (column L))
  /\ tokenizeFrom fuel L = Throw (UnterminatedComment (line L) (column L)).
Proof.
  intros Hu Hb Hf. pose proof Hu as Hu0. cbn [append] in Hu0.
  assert (Hn : nextToken fuel L
               = Throw (UnterminatedComment (line L) (column L))).
  { destruct fuel as [|fuel]; [lia|].
    pose proof (unread_consume _ _ _ Hu0) as Hu1.
    pose proof (unread_consume _ _ _ Hu1) as Hu2.
    cbn [nextToken skipWhitespace].
    rewrite (peek_cons _ _ _ Hu0).
    change (isWhitespace (JChar "/")) with false. cbv iota. cbn [bind].
    pose proof (unread_cons_lt _ _ _ Hu0) as Hlt.
    apply Nat.leb_gt in Hlt. rewrite Hlt.
    unfold readComment.
    rewrite (peek_cons _ _ _ Hu0). change (js_eq (JChar "/") "/") with true.
    cbv iota. rewrite (advance_cons _ _ _ Hu0). cbn [snd].
    rewrite (peek_cons _ _ _ Hu1).
    change (js_eq (JChar "*") "/") with false.
    change (js_eq (JChar "*") "*") with true. cbv iota.
    rewrite (advance_cons _ _ _ Hu1). cbn [snd].
    rewrite (blockCommentLoop_unterminated body (S fuel) _ _ _ Hb Hu2 Hf).
    reflexivity. }
  split; [exact Hn|]. eapply tokenizeFrom_throws; eauto.
Qed.

Lemma unterminated_block_comment_error_witness :
  let L := consumeAll ("a;" ++ String LF EmptyString)
             (newLexer ("a;" ++ String LF "/*/ b *")) in
  unread L = "/*/ b *"
  /\ nextToken 6 L = Throw (UnterminatedComment 2 1)
  /\ tokenizeFrom 6 L = Throw (UnterminatedComment 2 1).
Proof.
  split; [reflexivity|].
  apply (unterminated_block_comment_error 6
           (consumeAll ("a;" ++ String LF EmptyString)
              (newLexer ("a;" ++ String LF "/*/ b *")))
           "/ b *");
    [reflexivity | reflexivity | simpl; lia].
Defined.

(** ** Number literals *)

Lemma digitLoop_copies : forall (ds : string) (fuel : nat) (v : string)
  (L : Lexer) (d : ascii) (rest : string),
  allChars digitChar ds = true ->
  digitChar d = false ->
  unread L = ds ++ String d rest ->
  String.length ds < fuel ->
  digitLoop fuel v L = Ok (v ++ ds, consumeAll ds L).
Proof.
  induction ds as [|c ds IH]; intros fuel v L d rest Hc Hd Hu Hf;
    (destruct fuel as [|fuel]; [simpl in Hf; lia|]); cbn [digitLoop].
  - cbn [append] in Hu. rewrite (peek_cons _ _ _ Hu).
    unfold digitChar in Hd. rewrite Hd.
    rewrite append_nil_r. reflexivity.
  - cbn [append] in Hu. cbn [allChars] in Hc.
    apply andb_prop in Hc as [Hc1 Hc2].
    rewrite (peek_cons _ _ _ Hu). unfold digitChar in Hc1. rewrite Hc1.
    rewrite (advance_cons _ _ _ Hu).
    rewrite (IH fuel _ (consume c L) d rest Hc2 Hd).
    + cbn [toStr consumeAll]. rewrite append_assoc. reflexivity.
    + eapply unread_consume; eauto.
    + simpl in Hf. lia.
Qed.

Lemma digits_start (L : Lexer) (f : nat) (c : ascii) (s : string) :
  unread L = String c s -> digitChar c = true ->
  nextToken (S f) L = readNumber (S f) L.
Proof.
  intros Hu Hc. destruct (digit_class _ Hc) as (Hws & Hsl & Hq).
  rewrite (nextToken_dispatch _ _ _ _ Hu Hws Hsl), Hq.
  unfold digitChar in Hc. rewrite Hc. reflexivity.
Qed.

(** X8.  Wherever the lexer stands at a run of digits that is followed
    by a character other than a digit, and that character is not a dot
    with a digit behind it, [nextToken] adds one NUMBER token whose
    value is the run of digits and stops in front of that character.  A
    dot that no digit follows is therefore not part of the number. *)
Theorem integer_literal (fuel : nat) (L : Lexer) (ds : string) (d : ascii)
  (rest : string) :
  ds <> EmptyString ->
  allChars digitChar ds = true ->
  digitChar d = false ->
  Ascii.eqb d "." && startsWithDigit rest = false ->
  unread L = ds ++ String d rest ->
  String.length ds < fuel ->
  let L' := addToken NUMBER ds (line L) (column L) (consumeAll ds L) in
  nextToken fuel L = Ok L'
  /\ tokens L' = (tokens L ++ [tok NUMBER ds (line L) (column L)])%list
  /\ unread L' = String d rest.
Proof.
  intros Hne Hds Hd Hdot Hu Hf L'.
  pose proof (unread_consumeAll _ _ _ Hu) as Hu1.
  split; [|split].
  - destruct fuel as [|fuel]; [lia|].
    destruct ds as [|c ds]; [contradiction|].
    pose proof Hds as Hc. cbn [allChars] in Hc.
    apply andb_prop in Hc as [Hc _].
    pose proof Hu as Hu0. cbn [append] in Hu0.
    rewrite (digits_start _ _ _ _ Hu0 Hc). unfold readNumber.
    rewrite (digitLoop_copies _ _ _ _ d rest Hds Hd Hu Hf).
    cbn [bind append].
    rewrite (peek_cons _ _ _ Hu1), (charAt_next _ _ _ Hu1). cbn [js_eq].
    assert (Hno : Ascii.eqb d "."
                  && isDigit match rest with
                             | EmptyString => JUndefined
                             | String d0 _ => JChar d0
                             end = false).
    { destruct rest; [apply andb_false_r | exact Hdot]. }
    rewrite Hno. reflexivity.
  - unfold L', addToken. cbn [tokens]. rewrite tokens_consumeAll.
    reflexivity.
  - exact Hu1.
Qed.

Lemma integer_literal_witness :
  let L := consumeAll "x = " (newLexer "x = 42.toString") in
  let L' := addToken NUMBER "42" 1 5 (consumeAll "42" L) in
  unread L = "42.toString"
  /\ nextToken 3 L = Ok L'
  /\ tokens L' = [tok NUMBER "42" 1 5]
  /\ unread L' = ".toString".
Proof.
  split; [reflexivity|].
  apply (integer_literal 3 (consumeAll "x = " (newLexer "x = 42.toString"))
           "42" "."%char "toString");
    [discriminate | reflexivity | reflexivity | reflexivity | reflexivity
    | simpl; lia].
Defined.

(** X9.  Wherever the lexer stands at digits, a dot and digits, followed
    by a character other than a digit, [nextToken] adds one NUMBER token
    whose value is the whole text with its dot, and stops in front of
    that character.  A second dot is not taken: it ends the number. *)
Theorem fraction_literal (fuel : nat) (L : Lexer) (ds fs : string)
  (d : ascii) (rest : string) :
  ds <> EmptyString ->
  fs <> EmptyString ->
  allChars digitChar ds = true ->
  allChars digitChar fs = true ->
  digitChar d = false ->
  unread L = ds ++ "." ++ fs ++ String d rest ->
  String.length ds < fuel ->
  String.length fs < fuel ->
  let v := ds ++ "." ++ fs in
  let L' := addToken NUMBER v (line L) (column L) (consumeAll v L) in
  nextToken fuel L = Ok L'
  /\ tokens L' = (tokens L ++ [tok NUMBER v (line L) (column L)])%list
  /\ unread L' = String d rest.
Proof.
  intros Hne Hnf Hds Hfs Hd Hu Hf1 Hf2 v L'.
  assert (Hu' : unread L = v ++ String d rest).
  { unfold v. rewrite Hu, !append_assoc. reflexivity. }
  split; [|split].
  - destruct fuel as [|fuel]; [lia|].
    destruct ds as [|c ds]; [contradiction|].
    destruct fs as [|f fs]; [contradiction|].
    pose proof Hds as Hc. cbn [allChars] in Hc.
    apply andb_prop in Hc as [Hc _].
    pose proof Hfs as Hfc. cbn [allChars] in Hfc.
    apply andb_prop in Hfc as [Hfc _].
    pose proof Hu as Hu0. cbn [append] in Hu0.
    rewrite (digits_start _ _ _ _ Hu0 Hc). unfold readNumber.
    rewrite (digitLoop_copies (String c ds) _ _ _ "."%char
               (String f fs ++ String d rest) Hds eq_refl Hu Hf1).
    cbn [bind].
    pose proof (unread_consumeAll _ _ _ Hu) as Hu1. cbn [append] in Hu1.
    rewrite (peek_cons _ _ _ Hu1), (charAt_next _ _ _ Hu1).
    change (js_eq (JChar ".") ".") with true. cbn [andb].
    unfold digitChar in Hfc. rewrite Hfc.
    rewrite (advance_cons _ _ _ Hu1).
    pose proof (unread_consume _ _ _ Hu1) as Hu2.
    rewrite (digitLoop_copies (String f fs) _ _ _ d rest Hfs Hd Hu2 Hf2).
    cbn [bind]. unfold L', v. cbn [toStr].
    change (EmptyString ++ String c ds) with (String c ds).
    rewrite (append_assoc (String c ds) "." (String f fs)).
    rewrite (consumeAll_app (String c ds) ("." ++ String f fs)).
    reflexivity.
  - unfold L', addToken. cbn [tokens]. rewrite tokens_consumeAll.
    reflexivity.
  - unfold L'. rewrite unread_addToken. now apply unread_consumeAll.
Qed.

Lemma fraction_literal_witness :
  let L := newLexer "3.14.15;" in
  let L' := addToken NUMBER "3.14" 1 1 (consumeAll "3.14" L) in
  nextToken 3 L = Ok L'
  /\ tokens L' = [tok NUMBER "3.14" 1 1]
  /\ unread L' = ".15;".
Proof.
  apply (fraction_literal 3 (newLexer "3.14.15;") "3" "14" "."%char "15;");
    [discriminate | discriminate | reflexivity | reflexivity | reflexivity
    | reflexivity | simpl; lia | simpl; lia].
Defined.

(** ** Identifiers and keywords *)

Lemma nextToken_identifier_lexeme (fuel : nat) (L : Lexer) (x : string)
  (d : ascii) (rest : string) :
  isIdentifier x = true ->
  identChar d = false ->
  unread L = x ++ String d rest ->
  String.length x < fuel ->
  nextToken fuel L
  = Ok (addToken (keywordOrIdentifier x) x (line L) (column L)
          (consumeAll x L)).
Proof.
  intros Hx Hd Hu Hf.
  destruct fuel as [|fuel]; [lia|].
  pose proof (isIdentifier_chars _ Hx) as Hxs.
  destruct x as [|c x]; [discriminate|].
  cbn [isIdentifier] in Hx. apply andb_prop in Hx as [Hc _].
  destruct (identStart_class _ Hc) as (Hws & Hsl & Hq & Hdg).
  pose proof Hu as Hu0. cbn [append] in Hu0.
  rewrite (nextToken_dispatch _ _ _ _ Hu0 Hws Hsl), Hq, Hdg, Hc.
  unfold readIdentifierOrKeyword.
  rewrite (identifierLoop_copies _ (S fuel) EmptyString L d rest
             Hxs Hd Hu Hf).
  reflexivity.
Qed.

(** X10.  Wherever the lexer stands at an identifier lexeme (a letter or
    [_], then letters, digits, [_] and [-]) followed by a character that
    does not continue it, [nextToken] adds one token whose value is the
    whole lexeme, with the kind that the keyword lookup gives for that
    spelling, and stops in front of that character. *)
Theorem identifier_lexeme (fuel : nat) (L : Lexer) (x : string)
  (d : ascii) (rest : string) :
  isIdentifier x = true ->
  identChar d = false ->
  unread L = x ++ String d rest ->
  String.length x < fuel ->
  let t := tok (keywordOrIdentifier x) x (line L) (column L) in
  exists L',
    nextToken fuel L = Ok L'
    /\ tokens L' = (tokens L ++ [t])%list
    /\ unread L' = String d rest
    /\ (line L', column L') = positionAfter x (line L) (column L).
Proof.
  intros Hx Hd Hu Hf t. eexists. split; [|split; [|split]].
  - now apply (nextToken_identifier_lexeme fuel L x d rest).
  - unfold addToken, t, tok. cbn [tokens]. rewrite tokens_consumeAll.
    reflexivity.
  - rewrite unread_addToken. now apply unread_consumeAll.
  - unfold addToken. cbn [line column]. apply position_consumeAll.
Qed.

Lemma identifier_lexeme_witness :
  let L := consumeAll "if " (newLexer "if iffy_2 { }") in
  unread L = "iffy_2 { }"
  /\ exists L',
       nextToken 7 L = Ok L'
       /\ tokens L' = [tok IDENTIFIER "iffy_2" 1 4]
       /\ unread L' = " { }"
       /\ (line L', column L') = (1, 10).
Proof.
  split; [reflexivity|].
  apply (identifier_lexeme 7 (consumeAll "if " (newLexer "if iffy_2 { }"))
           "iffy_2" " "%char "{ }");
    [reflexivity | reflexivity | reflexivity | simpl; lia].
Defined.

Lemma KEYWORDS_entry (k : string) (T : TokenType) :
  In (k, T) KEYWORDS ->
  isIdentifier k = true /\ ownProperty k KEYWORDS = Some T.
Proof.
  unfold KEYWORDS. cbn [In]. intros H.
  repeat (destruct H as [H|H];
          [injection H as <- <-; split; reflexivity|]).
  contradiction.
Qed.

(** X11.  The keyword table decides the kind of a lexeme.  Wherever the
    lexer stands at the spelling of an entry of the table, followed by
    a character that does not continue an identifier, [nextToken] adds
    the token of the kind that the table gives.  Wherever it stands at
    an identifier lexeme that is neither an entry of the table nor a
    property name of [Object.prototype], it adds an IDENTIFIER. *)
Theorem keyword_table_decides_kind :
  (forall (fuel : nat) (L : Lexer) (k : string) (T : TokenType) (d : ascii)
          (rest : string),
      In (k, T) KEYWORDS ->
      identChar d = false ->
      unread L = k ++ String d rest ->
      String.length k < fuel ->
      nextToken fuel L
      = Ok (addToken T k (line L) (column L) (consumeAll k L)))
  /\
  (forall (fuel : nat) (L : Lexer) (x : string) (d : ascii) (rest : string),
      isIdentifier x = true ->
      ownProperty x KEYWORDS = None ->
      ~ In x ObjectPrototype ->
      identChar d = false ->
      unread L = x ++ String d rest ->
      String.length x < fuel ->
      nextToken fuel L
      = Ok (addToken IDENTIFIER x (line L) (column L) (consumeAll x L))).
Proof.
  split.
  - intros fuel L k T d rest Hin Hd Hu Hf.
    destruct (KEYWORDS_entry _ _ Hin) as [Hk Ho].
    rewrite (nextToken_identifier_lexeme fuel L k d rest Hk Hd Hu Hf).
    rewrite (keyword_of_table _ _ Ho). reflexivity.
  - intros fuel L x d rest Hx Ho Hp Hd Hu Hf.
    rewrite (nextToken_identifier_lexeme fuel L x d rest Hx Hd Hu Hf).
    rewrite (keyword_other _ Ho Hp). reflexivity.
Qed.

Lemma keyword_table_decides_kind_witness :
  (let L := consumeAll "x = " (newLexer "x = true;") in
   unread L = "true;"
   /\ nextToken 5 L = Ok (addToken BOOLEAN "true" 1 5 (consumeAll "true" L)))
  /\
  (let L := consumeAll "x = " (newLexer "x = truely;") in
   unread L = "truely;"
   /\ nextToken 7 L
      = Ok (addToken IDENTIFIER "truely" 1 5 (consumeAll "truely" L))).
Proof.
  split.
  - split; [reflexivity|].
    apply (proj1 keyword_table_decides_kind 5
             (consumeAll "x = " (newLexer "x = true;"))
             "true" BOOLEAN ";"%char EmptyString);
      [ | reflexivity | reflexivity | simpl; lia].
    unfold KEYWORDS. cbn [In]. do 18 right. left. reflexivity.
  - split; [reflexivity|].
    apply (proj2 keyword_table_decides_kind 7
             (consumeAll "x = " (newLexer "x = truely;"))
             "truely" ";"%char EmptyString);
      [reflexivity | reflexivity | | reflexivity | reflexivity
      | simpl; lia].
    cbn [ObjectPrototype In]. intros H.
    repeat (destruct H as [H|H]; [discriminate H|]). exact H.
Defined.

(** ** Operators and punctuation *)

(** Runs the dispatch of [nextToken] on the known character of [Hu],
    down to the case of the [switch]. *)
Ltac to_switch Hu :=
  rewrite (nextToken_dispatch _ _ _ _ Hu) by reflexivity;
  cbv beta iota delta [Ascii.eqb Bool.eqb DQUOTE isDigit identStart
    isAlpha js_ge js_le js_eq code nat_of_ascii andb orb];
  vm_compute Nat.leb; cbv iota;
  unfold punctuation; cbv beta iota delta [js_eq Ascii.eqb Bool.eqb].

(** X12.  The operators of two characters come before their one
    character prefixes: wherever the lexer stands at [==], [!=], [<=],
    [>=], [&&] or [||], [nextToken] adds the one token of that operator,
    with its two characters as value, and consumes both. *)
Theorem two_char_operator (fuel : nat) (L : Lexer) (c n : ascii)
  (T : TokenType) (text rest : string) :
  In (c, n, T, text) twoCharOperators ->
  unread L = String c (String n rest) ->
  let L' := addToken T text (line L) (column L) (consume n (consume c L)) in
  nextToken (S fuel) L = Ok L'
  /\ text = String c (String n EmptyString)
  /\ tokens L' = (tokens L ++ [tok T text (line L) (column L)])%list
  /\ unread L' = rest.
Proof.
  intros Hin Hu L'.
  pose proof (unread_consume _ _ _ Hu) as Hu1.
  pose proof (unread_consume _ _ _ Hu1) as Hu2.
  assert (Ht : tokens L' = (tokens L ++ [tok T text (line L) (column L)])%list).
  { unfold L', addToken, consume.
    destruct (Ascii.eqb c LF), (Ascii.eqb n LF); reflexivity. }
  unfold twoCharOperators in Hin. cbn [In] in Hin.
  repeat (destruct Hin as [Hin|Hin];
          [ injection Hin as <- <- <- <-;
            split; [|split; [reflexivity | split; [exact Ht | exact Hu2]]];
            to_switch Hu; unfold oneOrTwo;
            rewrite (advance_cons _ _ _ Hu); cbn [snd];
            rewrite (peek_cons _ _ _ Hu1);
            cbv beta iota delta [js_eq Ascii.eqb Bool.eqb];
            rewrite (advance_cons _ _ _ Hu1); reflexivity
          | ]).
  contradiction.
Qed.

Lemma two_char_operator_witness :
  let L := consumeAll "a " (newLexer "a <== b") in
  let L' := addToken LE "<=" 1 3 (consume "=" (consume "<" L)) in
  unread L = "<== b"
  /\ nextToken 1 L = Ok L'
  /\ "<=" = String "<" (String "=" EmptyString)
  /\ tokens L' = [tok LE "<=" 1 3]
  /\ unread L' = "= b".
Proof.
  split; [reflexivity|].
  apply (two_char_operator 0 (consumeAll "a " (newLexer "a <== b"))
           "<"%char "="%char LE "<=" "= b");
    [ | reflexivity].
  unfold twoCharOperators. cbn [In]. do 2 right. left. reflexivity.
Defined.

(** X13.  The tokens of one character: wherever the lexer stands at one
    of [= ! < > + - * % ( ) { } [ ] , ; : . @], and, for the first
    four, no [=] follows, [nextToken] adds the one token of that
    character, with the character as value, and consumes it alone. *)
Theorem one_char_token (fuel : nat) (L : Lexer) (c : ascii)
  (T : TokenType) (rest : string) :
  In (c, T) oneCharTokens ->
  (startsWith "=" rest = true -> ~ In c ["="; "!"; "<"; ">"]%char) ->
  unread L = String c rest ->
  let v := String c EmptyString in
  let L' := addToken T v (line L) (column L) (consume c L) in
  nextToken (S fuel) L = Ok L'
  /\ tokens L' = (tokens L ++ [tok T v (line L) (column L)])%list
  /\ unread L' = rest.
Proof.
  intros Hin Heq Hu v L'.
  pose proof (unread_consume _ _ _ Hu) as Hu1.
  assert (Ht : tokens L' = (tokens L ++ [tok T v (line L) (column L)])%list).
  { unfold L', addToken, consume. destruct (Ascii.eqb c LF); reflexivity. }
  split; [|split; [exact Ht | exact Hu1]].
  pose proof (peek_startsWith _ "="%char _ Hu1) as Hp.
  unfold oneCharTokens in Hin. cbn [In] in Hin.
  do 4 (destruct Hin as [Hin|Hin];
        [ injection Hin as <- <-;
          destruct (startsWith "=" rest);
          [ exfalso; apply (Heq eq_refl); cbn [In]; auto
          | to_switch Hu; unfold oneOrTwo;
            rewrite (advance_cons _ _ _ Hu); cbn [snd];
            rewrite Hp; reflexivity ]
        | ]).
  repeat (destruct Hin as [Hin|Hin];
          [ injection Hin as <- <-;
            to_switch Hu; unfold addAdvanced;
            rewrite (advance_cons _ _ _ Hu); reflexivity
          | ]).
  contradiction.
Qed.

Lemma one_char_token_witness :
  let L := consumeAll "a " (newLexer "a =! b") in
  let L' := addToken ASSIGN "=" 1 3 (consume "=" L) in
  unread L = "=! b"
  /\ nextToken 1 L = Ok L'
  /\ tokens L' = [tok ASSIGN "=" 1 3]
  /\ unread L' = "! b".
Proof.
  split; [reflexivity|].
  apply (one_char_token 0 (consumeAll "a " (newLexer "a =! b"))
           "="%char ASSIGN "! b");
    [ | discriminate | reflexivity].
  unfold oneCharTokens. cbn [In]. left. reflexivity.
Defined.

(** X14.  A slash that starts no comment is the SLASH token: wherever
    the lexer stands at a [/] that neither [/] nor [*] follows,
    [nextToken] adds the token SLASH with the line and column at which
    the lexer stood on the slash, and goes on right after the slash. *)
Theorem lone_slash_token (fuel : nat) (L : Lexer) (rest : string) :
  unread L = String "/" rest ->
  startsWith "/" rest = false ->
  startsWith "*" rest = false ->
  exists L',
    nextToken (S fuel) L = Ok L'
    /\ tokens L' = (tokens L ++ [tok SLASH "/" (line L) (column L)])%list
    /\ unread L' = rest
    /\ source L' = source L.
Proof.
  intros Hu H1 H2.
  pose proof (peek_cons _ _ _ Hu) as Hp.
  pose proof (unread_cons_lt _ _ _ Hu) as Hlt.
  cbn [nextToken skipWhitespace]. rewrite Hp.
  change (isWhitespace (JChar "/")) with false. cbv iota. cbn [bind].
  apply Nat.leb_gt in Hlt. rewrite Hlt.
  rewrite (readComment_lone_slash (S fuel) L rest Hu H1 H2). cbn [bind].
  rewrite !Hp.
  set (L0 := if (column L =? 1) && (1 <? line L)
             then mkLexer (source L) (currentPos L) (line L - 1)
                    (S (column L)) (tokens L)
             else L).
  assert (Hu0 : unread L0 = String "/" rest)
    by (unfold L0; destruct ((column L =? 1) && (1 <? line L)); exact Hu).
  assert (Ht0 : tokens L0 = tokens L)
    by (unfold L0; destruct ((column L =? 1) && (1 <? line L)); reflexivity).
  assert (Hs0 : source L0 = source L)
    by (unfold L0; destruct ((column L =? 1) && (1 <? line L)); reflexivity).
  cbv beta iota delta [DQUOTE isDigit isAlpha js_ge js_le js_eq code
    nat_of_ascii Ascii.eqb Bool.eqb andb orb].
  vm_compute Nat.leb. cbv iota.
  unfold punctuation. cbv beta iota delta [js_eq Ascii.eqb Bool.eqb].
  unfold addAdvanced. rewrite (advance_cons _ _ _ Hu0).
  eexists. split; [reflexivity|]. split; [|split].
  - unfold addToken, tok, consume. change (Ascii.eqb "/" LF) with false.
    cbn [tokens toStr]. rewrite Ht0. reflexivity.
  - rewrite unread_addToken. eapply unread_consume; eauto.
  - unfold addToken, consume. change (Ascii.eqb "/" LF) with false.
    cbn [source]. exact Hs0.
Qed.

Lemma lone_slash_token_witness :
  let L := consumeAll ("x" ++ String LF EmptyString)
             (newLexer ("x" ++ String LF "/body")) in
  unread L = "/body"
  /\ exists L',
       nextToken 1 L = Ok L'
       /\ tokens L' = [tok SLASH "/" 2 1]
       /\ unread L' = "body"
       /\ source L' = source L.
Proof.
  split; [reflexivity|].
  apply (lone_slash_token 0
           (consumeAll ("x" ++ String LF EmptyString)
              (newLexer ("x" ++ String LF "/body")))
           "body");
    reflexivity.
Defined.

(** ** Lines and columns *)

Lemma advanceN_consumeAll : forall (s : string) (L : Lexer) (rest : string),
  unread L = s ++ rest ->
  advanceN (String.length s) L = consumeAll s L.
Proof.
  induction s as [|c s IH]; intros L rest Hu; [reflexivity|].
  cbn [append] in Hu. cbn [String.length advanceN consumeAll].
  rewrite (advance_cons _ _ _ Hu). cbn [snd].
  apply (IH _ rest). eapply unread_consume; eauto.
Qed.

(** X15.  [advance] keeps the line and the column by the rule of
    1-based positions: after as many calls as the text [s] in front of
    the lexer has characters, the line has grown by the newlines of [s]
    and the column is 1 after a newline and one more after any other
    character; the lexer stands behind [s] and the tokens are as they
    were. *)
Theorem advance_counts_lines_and_columns (L : Lexer) (s rest : string) :
  unread L = s ++ rest ->
  let L' := advanceN (String.length s) L in
  (line L', column L') = positionAfter s (line L) (column L)
  /\ unread L' = rest
  /\ currentPos L' = currentPos L + String.length s
  /\ tokens L' = tokens L.
Proof.
  intros Hu L'. unfold L'. rewrite (advanceN_consumeAll s L rest Hu).
  split; [apply position_consumeAll|].
  split; [now apply unread_consumeAll|].
  split; [apply currentPos_consumeAll | apply tokens_consumeAll].
Qed.

Lemma advance_counts_lines_and_columns_witness :
  let s := "ab" ++ String LF ("c" ++ String LF "de") in
  let L := newLexer (s ++ "f") in
  let L' := advanceN 7 L in
  (line L', column L') = (3, 3)
  /\ unread L' = "f"
  /\ currentPos L' = 7
  /\ tokens L' = [].
Proof.
  apply (advance_counts_lines_and_columns
           (newLexer (("ab" ++ String LF ("c" ++ String LF "de")) ++ "f"))
           ("ab" ++ String LF ("c" ++ String LF "de")) "f").
  reflexivity.
Defined.

(** ** What the tokens spell *)

Lemma consumed_nil (L : Lexer) : consumed L L EmptyString.
Proof. split; reflexivity. Qed.

Lemma consumed_trans (L1 L2 L3 : Lexer) (s1 s2 : string) :
  consumed L1 L2 s1 -> consumed L2 L3 s2 -> consumed L1 L3 (s1 ++ s2).
Proof.
  intros [U1 E1] [U2 E2]. split.
  - rewrite U1, U2, append_assoc. reflexivity.
  - rewrite consumeAll_app, <- E1. exact E2.
Qed.

Lemma consumed_consume (L : Lexer) (c : ascii) (r : string) :
  unread L = String c r -> consumed L (consume c L) (String c EmptyString).
Proof.
  intros Hu. split; [|reflexivity].
  rewrite (unread_consume _ _ _ Hu). exact Hu.
Qed.

Lemma consumed_cons (L L' : Lexer) (c : ascii) (r s : string) :
  unread L = String c r -> consumed (consume c L) L' s ->
  consumed L L' (String c s).
Proof.
  intros Hu H.
  apply (consumed_trans _ _ _ _ _ (consumed_consume _ _ _ Hu) H).
Qed.

Lemma peek_cases (L : Lexer) :
  (unread L = EmptyString /\ peek L = JNull)
  \/ (exists c r, unread L = String c r /\ peek L = JChar c).
Proof.
  destruct (unread L) as [|c r] eqn:Hu.
  - left. split; [reflexivity | now apply peek_nil].
  - right. exists c, r. split; [reflexivity | eapply peek_cons; eauto].
Qed.

Lemma consumed_advance (L : Lexer) :
  exists s, consumed L (snd (advance L)) s.
Proof.
  destruct (peek_cases L) as [[Hu _]|(c & r & Hu & _)].
  - rewrite (advance_nil _ Hu). exists EmptyString. apply consumed_nil.
  - rewrite (advance_cons _ _ _ Hu). eexists.
    eapply consumed_consume; eauto.
Qed.

Lemma skipWhitespace_consumed : forall (n : nat) (L L' : Lexer),
  skipWhitespace n L = Ok L' -> exists s, consumed L L' s.
Proof.
  induction n as [|n IH]; intros L L' H; [discriminate|].
  cbn [skipWhitespace] in H.
  destruct (peek_cases L) as [[Hu Hp]|(c & r & Hu & Hp)]; rewrite Hp in H.
  - injection H as <-. exists EmptyString. apply consumed_nil.
  - destruct (isWhitespace (JChar c)).
    + rewrite (advance_cons _ _ _ Hu) in H. apply IH in H as [s H].
      eexists. eapply consumed_cons; eauto.
    + injection H as <-. exists EmptyString. apply consumed_nil.
Qed.

Lemma lineCommentLoop_consumed : forall (n : nat) (L L' : Lexer),
  lineCommentLoop n L = Ok L' -> exists s, consumed L L' s.
Proof.
  induction n as [|n IH]; intros L L' H; [discriminate|].
  cbn [lineCommentLoop] in H.
  destruct (peek_cases L) as [[Hu Hp]|(c & r & Hu & Hp)]; rewrite Hp in H.
  - injection H as <-. exists EmptyString. apply consumed_nil.
  - destruct (negb (is_null (JChar c)) && negb (js_eq (JChar c) LF)).
    + rewrite (advance_cons _ _ _ Hu) in H. apply IH in H as [s H].
      eexists. eapply consumed_cons; eauto.
    + injection H as <-. exists EmptyString. apply consumed_nil.
Qed.

Lemma blockCommentLoop_consumed : forall (n l k : nat) (L : Lexer) (b : bool)
  (L' : Lexer),
  blockCommentLoop n l k L = Ok (b, L') -> exists s, consumed L L' s.
Proof.
  induction n as [|n IH]; intros l k L b L' H; [discriminate|].
  cbn [blockCommentLoop] in H.
  destruct (peek_cases L) as [[Hu Hp]|(c & r & Hu & Hp)]; rewrite Hp in H;
    [discriminate|].
  cbn [is_null negb] in H. rewrite (advance_cons _ _ _ Hu) in H.
  destruct (js_eq (JChar c) "*" && js_eq (peek (consume c L)) "/").
  - injection H as _ <-.
    destruct (consumed_advance (consume c L)) as [s1 H1].
    destruct (consumed_advance (snd (advance (consume c L)))) as [s2 H2].
    eexists. eapply consumed_cons; eauto.
    eapply consumed_trans; eauto.
  - apply IH in H as [s H]. eexists. eapply consumed_cons; eauto.
Qed.

(** The loop of [readString] ends in front of a double quote or at the
    end of the input, with the consumed text added to the value. *)
Lemma stringLoop_consumed : forall (n : nat) (v : string) (L : Lexer)
  (v' : string) (L' : Lexer),
  stringLoop n v L = Ok (v', L') ->
  exists s, consumed L L' s /\ v' = v ++ s
            /\ (is_null (peek L') = true \/ peek L' = JChar DQUOTE).
Proof.
  induction n as [|n IH]; intros v L v' L' H; [discriminate|].
  cbn [stringLoop] in H.
  destruct (peek_cases L) as [[Hu Hp]|(c & r & Hu & Hp)]; rewrite Hp in H.
  - injection H as <- <-. exists EmptyString.
    rewrite append_nil_r, Hp. auto using consumed_nil.
  - cbn [is_null negb andb js_eq] in H.
    destruct (Ascii.eqb c DQUOTE) eqn:Ec; cbn [negb] in H.
    + injection H as <- <-. exists EmptyString.
      apply Ascii.eqb_eq in Ec. subst c.
      rewrite append_nil_r, Hp. auto using consumed_nil.
    + rewrite (advance_cons _ _ _ Hu) in H.
      apply IH in H as (s & Hc & -> & Hq). exists (String c s).
      split; [eapply consumed_cons; eauto|].
      split; [cbn [toStr]; rewrite append_assoc; reflexivity | exact Hq].
Qed.

Lemma digitLoop_consumed : forall (n : nat) (v : string) (L : Lexer)
  (v' : string) (L' : Lexer),
  digitLoop n v L = Ok (v', L') ->
  exists s, consumed L L' s /\ v' = v ++ s.
Proof.
  induction n as [|n IH]; intros v L v' L' H; [discriminate|].
  destruct (peek_cases L) as [[Hu Hp]|(c & r & Hu & Hp)].
  - rewrite (digitLoop_at_end _ _ _ Hu) in H. discriminate.
  - cbn [digitLoop] in H. rewrite Hp in H.
    destruct (isDigit (JChar c)).
    + rewrite (advance_cons _ _ _ Hu) in H.
      apply IH in H as (s & Hc & ->). exists (String c s).
      split; [eapply consumed_cons; eauto|].
      cbn [toStr]. rewrite append_assoc. reflexivity.
    + injection H as <- <-. exists EmptyString.
      rewrite append_nil_r. auto using consumed_nil.
Qed.

Lemma identifierLoop_consumed : forall (n : nat) (v : string) (L : Lexer)
  (v' : string) (L' : Lexer),
  identifierLoop n v L = Ok (v', L') ->
  exists s, consumed L L' s /\ v' = v ++ s.
Proof.
  induction n as [|n IH]; intros v L v' L' H; [discriminate|].
  destruct (peek_cases L) as [[Hu Hp]|(c & r & Hu & Hp)].
  - rewrite (identifierLoop_at_end _ _ _ Hu) in H. discriminate.
  - cbn [identifierLoop] in H. rewrite Hp in H.
    destruct (isAlphaNumeric (JChar c) || js_eq (JChar c) "-").
    + rewrite (advance_cons _ _ _ Hu) in H.
      apply IH in H as (s & Hc & ->). exists (String c s).
      split; [eapply consumed_cons; eauto|].
      cbn [toStr]. rewrite append_assoc. reflexivity.
    + injection H as <- <-. exists EmptyString.
      rewrite append_nil_r. auto using consumed_nil.
Qed.

Lemma readComment_true_consumed (n : nat) (L L1 : Lexer) :
  readComment n L = Ok (true, L1) -> exists s, consumed L L1 s.
Proof.
  unfold readComment. intros H.
  destruct (js_eq (peek L) "/") eqn:E0; [|discriminate].
  apply peek_is in E0 as [r Hu].
  rewrite (advance_cons _ _ _ Hu) in H. cbn [snd] in H.
  destruct (js_eq (peek (consume "/" L)) "/").
  - destruct (consumed_advance (consume "/" L)) as [s1 H1].
    destruct (lineCommentLoop n (snd (advance (consume "/" L))))
      as [L3| |] eqn:E; simpl in H; try discriminate.
    injection H as <-. apply lineCommentLoop_consumed in E as [s2 H2].
    eexists. eapply consumed_cons; eauto. eapply consumed_trans; eauto.
  - destruct (js_eq (peek (consume "/" L)) "*").
    + destruct (consumed_advance (consume "/" L)) as [s1 H1].
      apply blockCommentLoop_consumed in H as [s2 H2].
      eexists. eapply consumed_cons; eauto. eapply consumed_trans; eauto.
    + destruct ((column L =? 1) && _); discriminate.
Qed.

(** When [readComment] answers [false] the lexer is as it was, unless it
    stands at column 1 of a line after the first on a [/] that opens no
    comment. *)
Lemma readComment_false_cases (n : nat) (L L1 : Lexer) :
  readComment n L = Ok (false, L1) ->
  L1 = L
  \/ ((column L =? 1) && (1 <? line L) = true
      /\ exists r, unread L = String "/" r
                   /\ loneSlash (String "/" r) = true).
Proof.
  intros H. destruct (js_eq (peek L) "/") eqn:E0.
  - apply peek_is in E0 as [r Hu].
    destruct (startsWith "/" r) eqn:E1.
    { exfalso. revert H. unfold readComment.
      rewrite (peek_cons _ _ _ Hu). change (js_eq (JChar "/") "/") with true.
      cbv iota. rewrite (advance_cons _ _ _ Hu). cbn [snd].
      rewrite (peek_startsWith _ _ _ (unread_consume _ _ _ Hu)), E1.
      destruct (lineCommentLoop n _); simpl; discriminate. }
    destruct (startsWith "*" r) eqn:E2.
    { exfalso. revert H. unfold readComment.
      rewrite (peek_cons _ _ _ Hu). change (js_eq (JChar "/") "/") with true.
      cbv iota. rewrite (advance_cons _ _ _ Hu). cbn [snd].
      rewrite !(peek_startsWith _ _ _ (unread_consume _ _ _ Hu)), E1, E2.
      intros H. apply blockCommentLoop_ahead in H as [Hb _]. discriminate. }
    rewrite (readComment_lone_slash n L r Hu E1 E2) in H.
    destruct ((column L =? 1) && (1 <? line L)).
    + right. split; [reflexivity|]. exists r. split; [exact Hu|].
      cbn [loneSlash]. rewrite E1, E2. reflexivity.
    + injection H as <-. auto.
  - unfold readComment in H. rewrite E0 in H. injection H as <-. auto.
Qed.

Lemma readString_reads (n : nat) (L L' : Lexer) :
  readString n L = Ok L' ->
  exists v L1, consumed L L1 (quoted v)
               /\ L' = addToken STRING v (line L) (column L) L1.
Proof.
  unfold readString. intros H.
  destruct (peek_cases L) as [[Hu _]|(c & r & Hu & _)].
  - rewrite (advance_nil _ Hu) in H. discriminate.
  - rewrite (advance_cons _ _ _ Hu) in H. cbn [js_eq] in H.
    destruct (Ascii.eqb c DQUOTE) eqn:Ec; [|discriminate].
    apply Ascii.eqb_eq in Ec. subst c. cbn [negb] in H.
    destruct (stringLoop n EmptyString (consume DQUOTE L)) as [[v L2]| |]
      eqn:E; simpl in H; try discriminate.
    apply stringLoop_consumed in E as (s & Hc & -> & Hq).
    cbn [append] in *.
    destruct Hq as [Hq|Hq]; [rewrite Hq in H; discriminate|].
    rewrite Hq in H. cbn [is_null] in H.
    apply peek_JChar in Hq as [r2 Hu2].
    rewrite (advance_cons _ _ _ Hu2) in H. cbn [snd] in H.
    injection H as <-. exists s, (consume DQUOTE L2). split; [|reflexivity].
    unfold quoted. eapply consumed_cons; eauto.
    eapply consumed_trans; eauto. eapply consumed_consume; eauto.
Qed.

Lemma readNumber_reads (n : nat) (L L' : Lexer) :
  readNumber n L = Ok L' ->
  exists v L1, consumed L L1 v
               /\ L' = addToken NUMBER v (line L) (column L) L1.
Proof.
  unfold readNumber. intros H.
  destruct (digitLoop n EmptyString L) as [[v L1]| |] eqn:E1;
    simpl in H; try discriminate.
  apply digitLoop_consumed in E1 as (s1 & C1 & ->). cbn [append] in H.
  destruct (js_eq (peek L1) "." && _) eqn:Ed.
  - apply andb_prop in Ed as [Ed _]. apply peek_is in Ed as [r Hu].
    rewrite (advance_cons _ _ _ Hu) in H.
    destruct (digitLoop n _ (consume "." L1)) as [[v2 L2]| |] eqn:E2;
      simpl in H; try discriminate.
    apply digitLoop_consumed in E2 as (s2 & C2 & ->).
    injection H as <-. eexists _, L2. split; [|reflexivity].
    cbn [toStr]. rewrite append_assoc.
    eapply consumed_trans; eauto. eapply consumed_cons; eauto.
  - simpl in H. injection H as <-. eexists _, L1. split; eauto.
Qed.

Lemma readIdentifierOrKeyword_reads (n : nat) (L L' : Lexer) :
  readIdentifierOrKeyword n L = Ok L' ->
  exists v L1, consumed L L1 v
               /\ L' = addToken (keywordOrIdentifier v) v (line L)
                         (column L) L1.
Proof.
  unfold readIdentifierOrKeyword. intros H.
  destruct (identifierLoop n EmptyString L) as [[v L1]| |] eqn:E1;
    simpl in H; try discriminate.
  apply identifierLoop_consumed in E1 as (s1 & C1 & ->). cbn [append] in H.
  injection H as <-. eauto.
Qed.

Lemma oneOrTwo_reads (next : ascii) (two : TokenType) (text : string)
  (otherwise : Lexer -> result Lexer) (l k : nat) (L L' : Lexer)
  (c : ascii) (r : string) :
  unread L = String c r ->
  oneOrTwo next two text otherwise l k L = Ok L' ->
  (exists L2, consumed L L2 (String c (String next EmptyString))
              /\ L' = addToken two text l k L2)
  \/ otherwise (consume c L) = Ok L'.
Proof.
  unfold oneOrTwo. intros Hu H.
  rewrite (advance_cons _ _ _ Hu) in H. cbn [snd] in H.
  destruct (js_eq (peek (consume c L)) next) eqn:E; [|auto].
  apply peek_is in E as [r2 Hu2].
  rewrite (advance_cons _ _ _ Hu2) in H. cbn [snd] in H.
  injection H as <-. left. eexists. split; [|reflexivity].
  eapply consumed_cons; eauto. eapply consumed_consume; eauto.
Qed.

(** The [switch] adds a token whose value is the text it has consumed. *)
Lemma punctuation_reads (l k : nat) (L L' : Lexer) (c : ascii) (r : string) :
  unread L = String c r ->
  punctuation (JChar c) l k L = Ok L' ->
  exists T v L1, T <> EOF /\ T <> STRING /\ consumed L L1 v
                 /\ L' = addToken (TT T) v l k L1.
Proof.
  unfold punctuation. intros Hu H. cbv zeta in H. cbn [js_eq] in H.
  repeat match type of H with
    | (if Ascii.eqb c ?x then _ else _) = _ =>
        let E := fresh "E" in
        destruct (Ascii.eqb c x) eqn:E;
        [ apply Ascii.eqb_eq in E; subst c | clear E ]
    end;
    first
      [ discriminate H
      | match type of H with
        | addAdvanced ?T _ _ _ = _ =>
            unfold addAdvanced in H; rewrite (advance_cons _ _ _ Hu) in H;
            injection H as <-; exists T; eexists _, _;
            split; [discriminate|]; split; [discriminate|];
            split; [eapply consumed_consume; eauto | reflexivity]
        | oneOrTwo _ ?two ?text _ _ _ _ = _ =>
            apply (oneOrTwo_reads _ _ _ _ _ _ _ _ _ _ Hu) in H
              as [(L2 & HC & ->)|H];
            [ exists two, text, L2;
              split; [discriminate|]; split; [discriminate|];
              split; [exact HC | reflexivity]
            | cbv beta in H;
              first
                [ discriminate H
                | match type of H with
                  | Ok (addToken (TT ?T) ?v _ _ ?L1) = _ =>
                      injection H as <-; exists T, v, L1;
                      split; [discriminate|]; split; [discriminate|];
                      split; [eapply consumed_consume; eauto | reflexivity]
                  end ] ]
        end ].
Qed.

(** ** Lines and columns of the tokens *)

Lemma take_length_app (a b : string) : take (String.length a) (a ++ b) = a.
Proof. induction a as [|c a IH]; simpl; congruence. Qed.

Lemma take_add : forall (n : nat) (s a b : string),
  drop n s = a ++ b -> take (n + String.length a) s = take n s ++ a.
Proof.
  induction n as [|n IH]; intros s a b H.
  - rewrite drop_0 in H. subst s. cbn [Nat.add take append].
    apply take_length_app.
  - destruct s as [|c s].
    + destruct a; [reflexivity | discriminate].
    + change (drop (S n) (String c s)) with (drop n s) in H.
      cbn [Nat.add take append]. rewrite (IH _ _ _ H). reflexivity.
Qed.

Lemma take_drop : forall (n : nat) (s : string), take n s ++ drop n s = s.
Proof.
  induction n as [|n IH]; intros [|c s]; try reflexivity.
  cbn [take append]. change (drop (S n) (String c s)) with (drop n s).
  rewrite IH. reflexivity.
Qed.

Lemma positionAfter_app : forall (a b : string) (ln col : nat),
  positionAfter (a ++ b) ln col
  = positionAfter b (fst (positionAfter a ln col))
      (snd (positionAfter a ln col)).
Proof.
  induction a as [|c a IH]; intros b ln col; [reflexivity|].
  cbn [append positionAfter]. destruct (Ascii.eqb c LF); apply IH.
Qed.

Lemma consumed_facts (L L' : Lexer) (s : string) :
  consumed L L' s ->
  source L' = source L /\ tokens L' = tokens L
  /\ currentPos L' = currentPos L + String.length s
  /\ (line L', column L') = positionAfter s (line L) (column L).
Proof.
  intros [_ ->].
  auto using source_consumeAll, tokens_consumeAll, currentPos_consumeAll,
    position_consumeAll.
Qed.

Lemma inSync_consumed (L L' : Lexer) (s : string) :
  inSync L -> consumed L L' s -> inSync L'.
Proof.
  unfold inSync. intros HS HC.
  pose proof (consumed_facts _ _ _ HC) as (S1 & _ & P1 & Q1).
  destruct HC as [HU _]. unfold unread in HU.
  rewrite Q1, S1, P1, (take_add _ _ _ _ HU), positionAfter_app, <- HS.
  reflexivity.
Qed.

(** Column 1 is the column behind a newline, or that of the start. *)
Lemma column_one : forall (pre : string) (l0 c0 l : nat),
  1 <= c0 ->
  positionAfter pre l0 c0 = (l, 1) ->
  (pre = EmptyString /\ l = l0) \/ lastChar pre = Some LF.
Proof.
  induction pre as [|a pre IH]; intros l0 c0 l Hc H.
  - left. injection H as <- _. auto.
  - right. cbn [positionAfter] in H. destruct pre as [|b pre].
    + cbn [positionAfter] in H. destruct (Ascii.eqb a LF) eqn:E.
      * apply Ascii.eqb_eq in E. now subst a.
      * injection H as _ H. lia.
    + change (lastChar (String a (String b pre)))
        with (lastChar (String b pre)).
      destruct (Ascii.eqb a LF);
        (apply IH in H as [[H _]|H]; [discriminate H | exact H | lia]).
Qed.

Lemma lastChar_split : forall (s : string) (c : ascii),
  lastChar s = Some c -> exists pre, s = pre ++ String c EmptyString.
Proof.
  induction s as [|a s IH]; intros c H; [discriminate|].
  destruct s as [|b s].
  - injection H as <-. exists EmptyString. reflexivity.
  - change (lastChar (String a (String b s)))
      with (lastChar (String b s)) in H.
    apply IH in H as [pre ->]. exists (String a pre). reflexivity.
Qed.

Lemma slashSafe_app : forall (a b : string),
  slashSafe (a ++ b) = true -> slashSafe b = true.
Proof.
  induction a as [|c a IH]; intros b H; [exact H|].
  cbn [append slashSafe] in H. apply andb_prop in H as [_ H]. now apply IH.
Qed.

(** On a source without such a line start, a lexer that is in step with
    its position never meets the case in which [readComment] puts a
    slash back wrongly. *)
Lemma no_wrong_put_back (L : Lexer) (r : string) :
  inSync L ->
  slashSafe (source L) = true ->
  (column L =? 1) && (1 <? line L) = true ->
  unread L = String "/" r ->
  loneSlash (String "/" r) = true ->
  False.
Proof.
  unfold inSync. intros HS Hsafe Hc Hu Hl.
  apply andb_prop in Hc as [Hc Hln].
  apply Nat.eqb_eq in Hc. apply Nat.ltb_lt in Hln.
  rewrite Hc in HS. symmetry in HS.
  apply column_one in HS as [[_ HS]|HS]; [lia | | lia].
  apply lastChar_split in HS as [pre Hpre].
  pose proof (take_drop (currentPos L) (source L)) as Hsrc.
  unfold unread in Hu. rewrite Hpre, Hu, append_assoc in Hsrc.
  rewrite <- Hsrc in Hsafe. apply slashSafe_app in Hsafe.
  cbn [append] in Hsafe. cbn [slashSafe] in Hsafe.
  rewrite Hl in Hsafe. discriminate.
Qed.

Lemma keywordOrIdentifier_spelled (v : string) (l k : nat) :
  spelling (tok (keywordOrIdentifier v) v l k) = v.
Proof.
  unfold spelling, tok. cbn [Token.type Token.value].
  assert (H : keywordOrIdentifier v <> TT STRING).
  { unfold keywordOrIdentifier, getKeyword.
    destruct (ownProperty v KEYWORDS) as [t|] eqn:E.
    - intros H. injection H as ->. revert E. unfold KEYWORDS.
      cbn [ownProperty].
      repeat match goal with
        | |- (if ?b then _ else _) = _ -> _ => destruct b
        end; discriminate.
    - destruct (existsb (String.eqb v) ObjectPrototype); discriminate. }
  pose proof (keywordOrIdentifier_not_EOF v) as H'.
  destruct (keywordOrIdentifier v) as [[]|]; try reflexivity; contradiction.
Qed.

Lemma spelling_other (T : TokenType) (v : string) (l k : nat) :
  T <> EOF -> T <> STRING -> spelling (tok T v l k) = v.
Proof.
  intros H1 H2. unfold spelling, tok. cbn [Token.type Token.value].
  destruct T; try reflexivity; contradiction.
Qed.

Lemma unread_nil_iff (L : Lexer) :
  String.length (source L) <= currentPos L -> unread L = EmptyString.
Proof.
  intros H. pose proof (unread_length L) as E.
  destruct (unread L); [reflexivity | simpl in E; lia].
Qed.

Lemma inSync_addToken (T : TypeTag) (v : string) (l k : nat) (L : Lexer) :
  inSync L -> inSync (addToken T v l k L).
Proof. intros H. exact H. Qed.

(** What a call of [nextToken] that returns has read: some skipped text
    (white space and comments), then the spelling of the token it adds.
    When the lexer is in step with its position, and no line of the
    source starts with a slash that opens no comment, the token carries
    the line and column of the first character of its spelling and the
    lexer stays in step. *)
Lemma nextToken_reads : forall (n : nat) (L L' : Lexer),
  nextToken n L = Ok L' ->
  exists skipped t,
    unread L = skipped ++ spelling t ++ unread L'
    /\ tokens L' = (tokens L ++ [t])%list
    /\ source L' = source L
    /\ (inSync L -> slashSafe (source L) = true ->
        inSync L'
        /\ (Token.line t, Token.column t)
           = positionAfter skipped (line L) (column L)
        /\ (line L', column L')
           = positionAfter (skipped ++ spelling t) (line L) (column L)).
Proof.
  induction n as [|n IH]; intros L L' H; [discriminate|].
  cbn [nextToken] in H.
  destruct (skipWhitespace (S n) L) as [L0| |] eqn:E0;
    simpl in H; try discriminate.
  apply skipWhitespace_consumed in E0 as [ws C0].
  pose proof (consumed_facts _ _ _ C0) as (S0 & T0 & P0 & Q0).
  pose proof C0 as [U0 _].
  destruct (String.length (source L0) <=? currentPos L0) eqn:E.
  { apply Nat.leb_le in E. apply unread_nil_iff in E. injection H as <-.
    exists ws, (tok EOF "EOF" (line L0) (column L0)).
    rewrite unread_addToken, E. cbn [spelling tok Token.type append].
    split; [rewrite U0, E; reflexivity|].
    split; [unfold addToken; cbn [tokens]; rewrite T0; reflexivity|].
    split; [exact S0|]. intros HS _.
    split; [apply inSync_addToken; eapply (inSync_consumed L); eauto|].
    unfold tok, addToken. cbn [Token.line Token.column line column].
    rewrite append_nil_r. auto. }
  apply Nat.leb_gt in E.
  destruct (readComment (S n) L0) as [[b L1]| |] eqn:E1;
    simpl in H; try discriminate.
  destruct b.
  { apply readComment_true_consumed in E1 as [cs C1].
    pose proof (consumed_trans _ _ _ _ _ C0 C1) as C.
    pose proof (consumed_facts _ _ _ C) as (S1 & T1 & P1 & Q1).
    destruct C as [U1 _].
    apply IH in H as (sk & t & U & Tk & Sr & B).
    exists ((ws ++ cs) ++ sk), t.
    split; [rewrite U1, U, !append_assoc; reflexivity|].
    split; [rewrite Tk, T1; reflexivity|].
    split; [rewrite Sr; exact S1|]. intros HS Hsafe.
    assert (HS1 : inSync L1)
      by (eapply (inSync_consumed L); eauto;
          eapply consumed_trans; eauto).
    rewrite S1 in B. destruct (B HS1 Hsafe) as (B1 & B2 & B3).
    split; [exact B1|].
    rewrite (append_assoc (ws ++ cs) sk (spelling t)).
    rewrite !(positionAfter_app (ws ++ cs)), <- Q1.
    cbn [fst snd]. auto. }
  pose proof (readComment_false _ _ _ E1) as (S1 & T1 & P1).
  pose proof (unread_same L1 L0 S1 P1) as U1.
  rewrite <- (peek_same L1 L0 S1 P1) in H.
  apply readComment_false_cases in E1.
  assert (Finish : forall (T : TypeTag) (val v : string) (L2 : Lexer)
                     (l k : nat),
             consumed L1 L2 v ->
             spelling (tok T val l k) = v ->
             (L1 = L0 -> (l, k) = (line L0, column L0)) ->
             L' = addToken T val l k L2 ->
             exists skipped t,
               unread L = skipped ++ spelling t ++ unread L'
               /\ tokens L' = (tokens L ++ [t])%list
               /\ source L' = source L
               /\ (inSync L -> slashSafe (source L) = true ->
                   inSync L'
                   /\ (Token.line t, Token.column t)
                      = positionAfter skipped (line L) (column L)
                   /\ (line L', column L')
                      = positionAfter (skipped ++ spelling t) (line L)
                          (column L))).
  { intros T val v L2 l k C2 Hsp Hlk ->.
    pose proof (consumed_facts _ _ _ C2) as (S2 & T2 & P2 & Q2).
    pose proof C2 as [U2 _].
    exists ws, (tok T val l k). rewrite Hsp, unread_addToken.
    split; [rewrite U0, <- U1, U2; reflexivity|].
    split; [unfold addToken; cbn [tokens]; rewrite T2, T1, T0;
            reflexivity|].
    split; [unfold addToken; cbn [source]; congruence|].
    intros HS Hsafe.
    assert (HS0 : inSync L0) by (eapply (inSync_consumed L); eauto).
    assert (E10 : L1 = L0).
    { destruct E1 as [E1|(Hc & r & Hu & Hl)]; [exact E1|].
      exfalso. rewrite <- S0 in Hsafe.
      exact (no_wrong_put_back L0 r HS0 Hsafe Hc Hu Hl). }
    subst L1. specialize (Hlk eq_refl).
    split; [apply inSync_addToken, (inSync_consumed L0 _ v HS0 C2)|].
    unfold tok, addToken. cbn [Token.line Token.column line column].
    split; [rewrite Hlk; auto|].
    rewrite positionAfter_app, <- Q0. cbn [fst snd]. exact Q2. }
  destruct (js_eq (peek L1) DQUOTE).
  { apply readString_reads in H as (v & L2 & C2 & HL).
    apply (Finish STRING v (quoted v) L2 (line L1) (column L1) C2);
      [reflexivity | intros ->; reflexivity | exact HL]. }
  destruct (isDigit (peek L1)).
  { apply readNumber_reads in H as (v & L2 & C2 & HL).
    apply (Finish NUMBER v v L2 (line L1) (column L1) C2);
      [reflexivity | intros ->; reflexivity | exact HL]. }
  destruct (isAlpha (peek L1) || js_eq (peek L1) "_").
  { apply readIdentifierOrKeyword_reads in H as (v & L2 & C2 & HL).
    apply (Finish (keywordOrIdentifier v) v v L2 (line L1) (column L1) C2);
      [apply keywordOrIdentifier_spelled | intros ->; reflexivity
      | exact HL]. }
  destruct (peek_cases L1) as [[Hu _]|(c & r & Hu & Hp)].
  { rewrite U1 in Hu. pose proof (unread_length L0) as El.
    rewrite Hu in El. simpl in El. lia. }
  rewrite Hp in H.
  apply (punctuation_reads _ _ _ _ _ _ Hu) in H
    as (T & v & L2 & HT1 & HT2 & C2 & HL).
  apply (Finish (TT T) v v L2 (line L0) (column L0) C2);
    [now apply spelling_other | reflexivity | exact HL].
Qed.

Lemma weave_snoc : forall (skips : list string) (new : list Token)
  (s : string) (t : Token),
  List.length skips = List.length new ->
  weave (skips ++ [s]) (new ++ [t]) = weave skips new ++ s ++ spelling t.
Proof.
  induction skips as [|a skips IH]; intros [|b new] s t H;
    try discriminate H.
  - cbn [app weave append]. rewrite append_nil_r. reflexivity.
  - cbn [app weave]. injection H as H. rewrite (IH _ _ _ H).
    rewrite !append_assoc. reflexivity.
Qed.

Lemma placed_snoc : forall (skips : list string) (new : list Token)
  (s : string) (t : Token) (ln col : nat),
  List.length skips = List.length new ->
  placed skips new ln col ->
  (Token.line t, Token.column t)
  = positionAfter s (fst (positionAfter (weave skips new) ln col))
      (snd (positionAfter (weave skips new) ln col)) ->
  placed (skips ++ [s]) (new ++ [t]) ln col.
Proof.
  induction skips as [|a skips IH]; intros [|b new] s t ln col H Hp Ht;
    try discriminate H.
  - cbn [app placed]. split; [exact Ht | exact I].
  - cbn [app placed weave] in *. injection H as H. destruct Hp as [Hb Hp].
    split; [exact Hb|]. apply IH; auto.
    rewrite <- append_assoc, positionAfter_app in Ht. exact Ht.
Qed.

(** The loop of [tokenize] reads its tokens off the unread input, one
    after the other, up to the end of the input. *)
Lemma tokenizeLoop_weave : forall (k fuel : nat) (L L' : Lexer),
  tokenizeLoop fuel k L = Ok L' ->
  exists skips new,
    List.length skips = List.length new
    /\ tokens L' = (tokens L ++ new)%list
    /\ unread L = weave skips new
    /\ (inSync L -> slashSafe (source L) = true ->
        placed skips new (line L) (column L)
        /\ (line L', column L')
           = positionAfter (weave skips new) (line L) (column L)).
Proof.
  induction k as [|k IH]; intros fuel L L' H; [discriminate|].
  cbn [tokenizeLoop] in H.
  destruct (currentPos L <? String.length (source L)) eqn:E.
  - destruct (nextToken fuel L) as [L1| |] eqn:E1; simpl in H;
      try discriminate.
    apply nextToken_reads in E1 as (sk & t & U & Tk & Sr & B).
    apply IH in H as (skips & new & Hlen & Hnew & Hw & HB).
    exists (sk :: skips), (t :: new).
    split; [cbn [List.length]; congruence|].
    split; [rewrite Hnew, Tk, <- app_assoc; reflexivity|].
    split; [cbn [weave]; rewrite U, Hw; reflexivity|].
    intros HS Hsafe. destruct (B HS Hsafe) as (B1 & B2 & B3).
    rewrite Sr in HB. destruct (HB B1 Hsafe) as [HP HQ].
    cbn [placed weave]. rewrite <- B3. cbn [fst snd].
    split; [split; assumption|].
    rewrite <- append_assoc, positionAfter_app, <- B3. exact HQ.
  - injection H as <-. apply Nat.ltb_ge in E.
    exists [], []. split; [reflexivity|].
    split; [rewrite app_nil_r; reflexivity|].
    split; [now apply unread_nil_iff|].
    intros _ _. split; [exact I | reflexivity].
Qed.

(** X16.  The tokens spell the source.  Every token sequence that
    [tokenize] returns lies in the source in its order: the source is a
    skipped text (white space, comments), the spelling of the first
    token, a skipped text, the spelling of the second token, and so on
    to the last token.  The spelling of a token is its value, with the
    two quotes around it for a STRING, and nothing for the end-of-input
    token; so the value of a token is never anything but the text of
    the source at its place. *)
Theorem tokens_spell_the_source (fuel : nat) (src : string)
  (ts : list Token) :
  tokenize fuel src = Ok ts ->
  exists skips,
    List.length skips = List.length ts /\ weave skips ts = src.
Proof.
  unfold tokenize, tokenizeFrom. intros H.
  destruct (tokenizeLoop fuel fuel (newLexer src)) as [L1| |] eqn:E;
    simpl in H; try discriminate.
  injection H as <-.
  apply tokenizeLoop_weave in E as (skips & new & Hlen & Hnew & Hw & _).
  cbn [newLexer tokens app] in Hnew. rewrite unread_newLexer in Hw.
  exists (skips ++ [EmptyString])%list. rewrite Hnew. split.
  - rewrite !List.length_app. cbn [List.length]. lia.
  - rewrite (weave_snoc _ _ _ _ Hlen). cbn [spelling tok Token.type append].
    rewrite append_nil_r. symmetry. exact Hw.
Qed.

Lemma tokens_spell_the_source_witness :
  let src := "a = " ++ quoted "b c" ++ "; // d" in
  let ts := [tok IDENTIFIER "a" 1 1; tok ASSIGN "=" 1 3;
             tok STRING "b c" 1 5; tok SEMICOLON ";" 1 10;
             tok EOF "EOF" 1 16; tok EOF "EOF" 1 16] in
  tokenize 9 src = Ok ts
  /\ exists skips,
       List.length skips = List.length ts /\ weave skips ts = src.
Proof.
  split; [reflexivity|].
  apply (tokens_spell_the_source 9 ("a = " ++ quoted "b c" ++ "; // d")).
  reflexivity.
Defined.

Lemma inSync_newLexer (src : string) : inSync (newLexer src).
Proof. reflexivity. Qed.

(** X17.  Every token carries the line and column of its first
    character, provided that no line of the source after the first
    starts with a slash that opens no comment.  For every token
    sequence that [tokenize] returns on such a source, the line and
    column of each token are the 1-based position of the first
    character of its spelling in the source (for the end-of-input
    tokens: the position behind the last character). *)
Theorem tokens_carry_their_positions (fuel : nat) (src : string)
  (ts : list Token) :
  slashSafe src = true ->
  tokenize fuel src = Ok ts ->
  exists skips,
    List.length skips = List.length ts
    /\ weave skips ts = src
    /\ placed skips ts 1 1.
Proof.
  unfold tokenize, tokenizeFrom. intros Hsafe H.
  destruct (tokenizeLoop fuel fuel (newLexer src)) as [L1| |] eqn:E;
    simpl in H; try discriminate.
  injection H as <-.
  apply tokenizeLoop_weave in E as (skips & new & Hlen & Hnew & Hw & HB).
  destruct (HB (inSync_newLexer src) Hsafe) as [HP HQ].
  cbn [newLexer tokens app line column] in *.
  rewrite unread_newLexer in Hw.
  exists (skips ++ [EmptyString])%list. rewrite Hnew. split; [|split].
  - rewrite !List.length_app. cbn [List.length]. lia.
  - rewrite (weave_snoc _ _ _ _ Hlen). cbn [spelling tok Token.type append].
    rewrite append_nil_r. symmetry. exact Hw.
  - apply placed_snoc; auto.
    unfold tok. cbn [Token.line Token.column positionAfter].
    rewrite HQ. apply surjective_pairing.
Qed.

Lemma tokens_carry_their_positions_witness :
  let src := "a /b;" ++ String LF ("// c" ++ String LF "  d") ++ ";" in
  let ts := [tok IDENTIFIER "a" 1 1; tok SLASH "/" 1 3;
             tok IDENTIFIER "b" 1 4; tok SEMICOLON ";" 1 5;
             tok IDENTIFIER "d" 3 3; tok SEMICOLON ";" 3 4;
             tok EOF "EOF" 3 5] in
  slashSafe src = true
  /\ tokenize 9 src = Ok ts
  /\ exists skips,
       List.length skips = List.length ts
       /\ weave skips ts = src
       /\ placed skips ts 1 1.
Proof.
  split; [reflexivity|]. split; [reflexivity|].
  apply (tokens_carry_their_positions 9
           ("a /b;" ++ String LF ("// c" ++ String LF "  d") ++ ";"));
    reflexivity.
Defined.
